(** * Shallow embedding of the SP connection pipe ([src/conn.go]).

    The pipe wraps one byte stream ([net.Conn]).  The stream is modelled as
    a scripted transport: the bytes the peer will deliver (followed by an
    optional read error), the bytes written so far, the outcome of each
    successive [Write] call, and its closed state.  The pipe operations are
    written in a small state monad over the pipe record, with Go's
    [error] results returned as values, as in the source. *)

From Stdlib Require Import ZArith List Bool Lia Permutation.
From Stdlib Require Import Strings.Byte.
Import ListNotations.
Open Scope Z_scope.

(** ** Bytes and big-endian integers ([encoding/binary]) *)

(** [byte(v)] in Go: truncation of an integer to its low 8 bits. *)
Definition byte_of_Z (z : Z) : byte :=
  match Byte.of_N (Z.to_N (z mod 256)) with
  | Some b => b
  | None => Byte.x00
  end.

Definition Z_of_byte (b : byte) : Z := Z.of_N (Byte.to_N b).

(** [BigEndian.PutUint16] / [PutUint64]: [k] bytes, most significant first,
    byte [i] being [byte(v >> (8 * (k - 1 - i)))]. *)
Fixpoint put_be (k : nat) (v : Z) : list byte :=
  match k with
  | O => []
  | S k' => byte_of_Z (Z.shiftr v (8 * Z.of_nat k')) :: put_be k' v
  end.

(** [BigEndian.Uint16] / [Uint64]: the bytes read most significant first. *)
Definition get_be (bs : list byte) : Z :=
  fold_left (fun acc b => Z.lor (Z.shiftl acc 8) (Z_of_byte b)) bs 0.

(** [int64(u)]: reinterpretation of an unsigned 64-bit value as signed. *)
Definition to_int64 (u : Z) : Z :=
  if u <? 2 ^ 63 then u else u - 2 ^ 64.

(** ** Errors *)

(** Transport errors: [io.EOF], [io.ErrUnexpectedEOF], the error of an
    operation on a closed connection, and any other transport error. *)
Inductive ioerr :=
| EOF
| ErrUnexpectedEOF
| ErrClosed
| ErrTransport (code : nat).

(** The errors the pipe returns. *)
Inductive err :=
| Io (e : ioerr)
| ErrTooLong
| ErrBadHeader
| ErrBadVersion.

(** ** The underlying stream ([net.Conn]) *)

(** Outcome of one [Write] call: all bytes written, or the first [k] bytes
    written followed by error [e]. *)
Inductive wres :=
| WOk
| WFail (k : nat) (e : ioerr).

Record stream := mkStream {
  sin : list byte;          (* bytes the peer still delivers *)
  sin_err : option ioerr;   (* error once they run out (None: EOF) *)
  sout : list byte;         (* bytes written so far *)
  wplan : list wres;        (* outcomes of the next Write calls *)
  sclosed : bool;           (* Close has been called *)
  ncloses : nat             (* number of Close calls *)
}.

(** [io.ReadFull(c, buf)] with [len(buf) = n] ([binary.Read] uses it too). *)
Definition read_full (n : nat) (s : stream) : (ioerr + list byte) * stream :=
  if (n =? 0)%nat then (inr [], s)
  else if sclosed s then (inl ErrClosed, s)
  else if (n <=? length (sin s))%nat then
    (inr (firstn n (sin s)),
     mkStream (skipn n (sin s)) (sin_err s) (sout s) (wplan s) (sclosed s) (ncloses s))
  else
    let e := match sin_err s with
             | Some e => e
             | None => if (length (sin s) =? 0)%nat then EOF else ErrUnexpectedEOF
             end in
    (inl e, mkStream [] (sin_err s) (sout s) (wplan s) (sclosed s) (ncloses s)).

(** [c.Write(bs)]: one Write call, whose outcome is the next planned one
    (success when the plan is exhausted). *)
Definition write (bs : list byte) (s : stream) : option ioerr * stream :=
  if sclosed s then (Some ErrClosed, s)
  else match wplan s with
  | [] => (None, mkStream (sin s) (sin_err s) (sout s ++ bs) [] false (ncloses s))
  | WOk :: rest => (None, mkStream (sin s) (sin_err s) (sout s ++ bs) rest false (ncloses s))
  | WFail k e :: rest =>
      (Some e, mkStream (sin s) (sin_err s) (sout s ++ firstn k bs) rest false (ncloses s))
  end.

(** [c.Close()]: closing twice reports an error, as [net.Conn] does. *)
Definition close (s : stream) : option ioerr * stream :=
  (if sclosed s then Some ErrClosed else None,
   mkStream (sin s) (sin_err s) (sout s) (wplan s) true (S (ncloses s))).

(** ** The pipe ([type conn struct]) *)

(** The two mutexes [rlock] and [wlock] have no effect on a sequential
    run; they are modelled in the interleaving semantics further below. *)
Record conn := mkConn {
  conn_ : stream;
  rproto : Z;
  lproto : Z;
  open : bool
}.

Definition set_stream (p : conn) (s : stream) : conn :=
  mkConn s (rproto p) (lproto p) (open p).

(** A state monad over the pipe. *)
Definition M (A : Type) : Type := conn -> A * conn.

Definition ret {A} (a : A) : M A := fun p => (a, p).
Definition bind {A B} (m : M A) (k : A -> M B) : M B :=
  fun p => let (a, p') := m p in k a p'.

Notation "x <- m ;; k" := (bind m (fun x => k))
  (at level 61, m at next level, right associativity).
Notation "m ;;; k" := (bind m (fun _ => k))
  (at level 61, right associativity).

Definition lift {A} (f : stream -> A * stream) : M A :=
  fun p => let (a, s') := f (conn_ p) in (a, set_stream p s').

Definition c_read_full (n : nat) : M (ioerr + list byte) := lift (read_full n).
Definition c_write (bs : list byte) : M (option ioerr) := lift (write bs).
Definition c_close : M (option ioerr) := lift close.

Definition get : M conn := fun p => (p, p).
Definition set_open (b : bool) : M unit :=
  fun p => (tt, mkConn (conn_ p) (rproto p) (lproto p) b).
Definition set_rproto (r : Z) : M unit :=
  fun p => (tt, mkConn (conn_ p) r (lproto p) (open p)).

(** ** Messages *)

Record Message := mkMessage {
  Header : list byte;
  Body : list byte
}.

(** The receive bound, [1024*1024]. *)
Definition max_len : Z := 1024 * 1024.

(** [func (p *conn) Recv()]: the message read, or an error. *)
Definition Recv : M (err + Message) :=
  r <- c_read_full 8 ;;                       (* binary.Read(p.conn, BigEndian, &sz) *)
  match r with
  | inl e => ret (inl (Io e))
  | inr bs =>
      let sz := to_int64 (get_be bs) in
      if (sz >? max_len) || (sz <? 0) then
        c_close ;;; ret (inl ErrTooLong)
      else
        b <- c_read_full (Z.to_nat sz) ;;     (* io.ReadFull(p.conn, msg.Body) *)
        match b with
        | inl e => ret (inl (Io e))
        | inr body => ret (inr (mkMessage [] body))
        end
  end.

(** [func (p *conn) Send(msg *Message) error].  The buffer [h] filled by
    [putUint64] is not used afterwards: the length goes out through
    [binary.Write]. *)
Definition Send (msg : Message) : M (option err) :=
  let l := Z.of_nat (length (Header msg) + length (Body msg)) mod 2 ^ 64 in
  e1 <- c_write (put_be 8 l) ;;               (* binary.Write(p.conn, BigEndian, l) *)
  match e1 with
  | Some e => ret (Some (Io e))
  | None =>
      e2 <- c_write (Header msg) ;;
      match e2 with
      | Some e => ret (Some (Io e))
      | None =>
          e3 <- c_write (Body msg) ;;
          match e3 with
          | Some e => ret (Some (Io e))
          | None => ret None
          end
      end
  end.

Definition LocalProtocol : M Z := p <- get ;; ret (lproto p).
Definition RemoteProtocol : M Z := p <- get ;; ret (rproto p).
Definition IsOpen : M bool := p <- get ;; ret (open p).

(** [func (p *conn) Close() error] *)
Definition Close : M (option err) :=
  set_open false ;;;
  e <- c_close ;;
  ret (option_map Io e).

(** ** Handshake *)

Record connHeader := mkConnHeader {
  Zero : byte;
  S_ : byte;
  P_ : byte;
  Version : byte;
  Proto : Z;      (* uint16 *)
  Rsvd : Z        (* uint16 *)
}.

(** [binary.Write] of a [connHeader]: its fields in order, big-endian. *)
Definition encode_header (h : connHeader) : list byte :=
  [Zero h; S_ h; P_ h; Version h] ++ put_be 2 (Proto h) ++ put_be 2 (Rsvd h).

(** [binary.Read] into a [connHeader] from the 8 bytes read. *)
Definition decode_header (bs : list byte) : connHeader :=
  mkConnHeader (nth 0 bs Byte.x00) (nth 1 bs Byte.x00) (nth 2 bs Byte.x00)
    (nth 3 bs Byte.x00)
    (get_be [nth 4 bs Byte.x00; nth 5 bs Byte.x00])
    (get_be [nth 6 bs Byte.x00; nth 7 bs Byte.x00]).

(** The check of line 159: [h.Zero != 0 || h.S != 'S' || h.P != 'P' || h.Rsvd != 0]. *)
Definition bad_header (h : connHeader) : bool :=
  negb (Byte.eqb (Zero h) Byte.x00) || negb (Byte.eqb (S_ h) Byte.x53)
  || negb (Byte.eqb (P_ h) Byte.x50) || negb (Rsvd h =? 0).

(** [func (p *conn) handshake() error] *)
Definition handshake : M (option err) :=
  p <- get ;;
  let h := mkConnHeader Byte.x00 Byte.x53 Byte.x50 Byte.x00 (lproto p) 0 in
  w <- c_write (encode_header h) ;;
  match w with
  | Some e => ret (Some (Io e))
  | None =>
      r <- c_read_full 8 ;;
      match r with
      | inl e => c_close ;;; ret (Some (Io e))
      | inr bs =>
          let h := decode_header bs in
          if bad_header h then c_close ;;; ret (Some ErrBadHeader)
          else if negb (Byte.eqb (Version h) Byte.x00) then
            c_close ;;; ret (Some ErrBadVersion)
          else
            set_rproto (Proto h) ;;;
            set_open true ;;;
            ret None
      end
  end.

(** [func NewConnPipe(c net.Conn, lproto uint16) (Pipe, error)]: the error
    or the pipe, together with the state of [c] afterwards. *)
Definition NewConnPipe (c : stream) (lp : Z) : (err + conn) * stream :=
  let p := mkConn c 0 lp false in
  let (e, p') := handshake p in
  match e with
  | Some e => (inl e, conn_ p')
  | None => (inr p', conn_ p')
  end.

(** ** Frames *)

(** The length [Send] puts on the wire: [uint64(len(msg.Header) + len(msg.Body))]. *)
Definition wire_len (m : Message) : Z :=
  Z.of_nat (length (Header m) + length (Body m)) mod 2 ^ 64.

(** The bytes of one complete frame. *)
Definition frame (m : Message) : list byte :=
  put_be 8 (wire_len m) ++ Header m ++ Body m.

(** A caller receiving [n] messages in a row on one pipe. *)
Fixpoint recv_n (n : nat) : M (list (err + Message)) :=
  match n with
  | O => ret []
  | S n' => r <- Recv ;; rs <- recv_n n' ;; ret (r :: rs)
  end.

(** The send path as the spec words it: the pieces are written in order,
    each by one write whose outcome is the next planned one; the first
    failing write ends the send with its error, and nothing after it is
    written. *)
Fixpoint write_pieces_spec (pieces : list (list byte)) (plan : list wres)
  : option ioerr * list byte * list wres :=
  match pieces with
  | [] => (None, [], plan)
  | bs :: rest =>
      match plan with
      | WFail k e :: plan' => (Some e, firstn k bs, plan')
      | _ =>
          let '(e, w, pl) := write_pieces_spec rest (tl plan) in
          (e, bs ++ w, pl)
      end
  end.

(** ** Concurrent callers

    Interleaving semantics of one pipe shared by [length msgs] goroutines,
    goroutine [i] calling [Send (nth i msgs)], and [nrecv] goroutines
    calling [Recv].  Each goroutine is a program counter; a step is one
    action of one goroutine: taking or releasing a mutex, or one I/O call.
    [Lock] is enabled only while the mutex is free.  Writes succeed and a
    read blocks until the bytes it needs have arrived. *)

Inductive spc := SStart | SLocked | SLen | SHdr | SBody | SDone.
Inductive rpc :=
| RStart
| RLocked
| RLen (sz : Z)
| RBody (body : list byte)
| RDone (r : err + Message).

Record sys := mkSys {
  wlock : option nat;          (* holder of p.wlock *)
  rlock : option nat;          (* holder of p.rlock *)
  spcs : nat -> spc;           (* sending goroutines *)
  rpcs : nat -> rpc;           (* receiving goroutines *)
  out : list byte;             (* bytes written to the stream *)
  inp : list byte;             (* bytes arrived and not yet read *)
  closed : bool                (* p.conn.Close() was called *)
}.

Definition upd {A} (f : nat -> A) (i : nat) (x : A) : nat -> A :=
  fun j => if (j =? i)%nat then x else f j.

Section Interleaving.

Variable msgs : list Message.
Variable nrecv : nat.

Definition msg_of (i : nat) : Message := nth i msgs (mkMessage [] []).

Definition set_spc (st : sys) (i : nat) (pc : spc) (w : option nat) (o : list byte) : sys :=
  mkSys w (rlock st) (upd (spcs st) i pc) (rpcs st) o (inp st) (closed st).

Definition set_rpc (st : sys) (j : nat) (pc : rpc) (r : option nat) (ip : list byte)
  (c : bool) : sys :=
  mkSys (wlock st) r (spcs st) (upd (rpcs st) j pc) (out st) ip c.

Inductive step : sys -> sys -> Prop :=
(* Send: p.wlock.Lock() *)
| step_wlock st i :
    (i < length msgs)%nat -> spcs st i = SStart -> wlock st = None ->
    step st (set_spc st i SLocked (Some i) (out st))
(* Send: binary.Write(p.conn, binary.BigEndian, l) *)
| step_wlen st i :
    spcs st i = SLocked ->
    step st (set_spc st i SLen (wlock st) (out st ++ put_be 8 (wire_len (msg_of i))))
(* Send: p.conn.Write(msg.Header) *)
| step_whdr st i :
    spcs st i = SLen ->
    step st (set_spc st i SHdr (wlock st) (out st ++ Header (msg_of i)))
(* Send: p.conn.Write(msg.Body) *)
| step_wbody st i :
    spcs st i = SHdr ->
    step st (set_spc st i SBody (wlock st) (out st ++ Body (msg_of i)))
(* Send: return nil, running the deferred p.wlock.Unlock() *)
| step_wunlock st i :
    spcs st i = SBody ->
    step st (set_spc st i SDone None (out st))
(* Recv: p.rlock.Lock() *)
| step_rlock st j :
    (j < nrecv)%nat -> rpcs st j = RStart -> rlock st = None ->
    step st (set_rpc st j RLocked (Some j) (inp st) (closed st))
(* Recv: binary.Read(p.conn, binary.BigEndian, &sz) *)
| step_rlen st j bs rest :
    rpcs st j = RLocked -> inp st = bs ++ rest -> length bs = 8%nat ->
    step st (set_rpc st j (RLen (to_int64 (get_be bs))) (rlock st) rest (closed st))
(* Recv: the bound check fails: p.conn.Close(); return nil, ErrTooLong *)
| step_rtoolong st j sz :
    rpcs st j = RLen sz -> (sz >? max_len) || (sz <? 0) = true ->
    step st (set_rpc st j (RDone (inl ErrTooLong)) None (inp st) true)
(* Recv: io.ReadFull(p.conn, msg.Body) *)
| step_rbody st j sz body rest :
    rpcs st j = RLen sz -> (sz >? max_len) || (sz <? 0) = false ->
    inp st = body ++ rest -> length body = Z.to_nat sz ->
    step st (set_rpc st j (RBody body) (rlock st) rest (closed st))
(* Recv: return msg, nil, running the deferred p.rlock.Unlock() *)
| step_runlock st j body :
    rpcs st j = RBody body ->
    step st (set_rpc st j (RDone (inr (mkMessage [] body))) None (inp st) (closed st)).

Inductive steps : sys -> sys -> Prop :=
| steps_refl st : steps st st
| steps_cons st1 st2 st3 : step st1 st2 -> steps st2 st3 -> steps st1 st3.

(** All goroutines not started yet; [ip] is what the peer sends. *)
Definition init (ip : list byte) : sys :=
  mkSys None None (fun _ => SStart) (fun _ => RStart) [] ip false.

(** Invariant of the sending goroutines: a goroutine past [Lock] and
    before [Unlock] holds [wlock]; the stream holds the complete frames of
    the goroutines that wrote their body, in the order they did, then the
    part of a frame written by the holder of [wlock]. *)
Definition in_cs (pc : spc) : bool :=
  match pc with SLocked | SLen | SHdr | SBody => true | _ => false end.

Definition finished (pc : spc) : bool :=
  match pc with SBody | SDone => true | _ => false end.

Definition partial (m : Message) (pc : spc) : list byte :=
  match pc with
  | SLen => put_be 8 (wire_len m)
  | SHdr => put_be 8 (wire_len m) ++ Header m
  | _ => []
  end.

Definition send_inv (st : sys) : Prop :=
  (forall i, (length msgs <= i)%nat -> spcs st i = SStart) /\
  (forall i, in_cs (spcs st i) = true -> wlock st = Some i) /\
  (forall i, wlock st = Some i -> in_cs (spcs st i) = true) /\
  exists order, NoDup order /\
    (forall i, In i order <-> finished (spcs st i) = true) /\
    out st = concat (map (fun i => frame (msg_of i)) order) ++
             match wlock st with Some i => partial (msg_of i) (spcs st i) | None => [] end.

(** One sending goroutine [i] running [Send] from [Lock] to [Unlock]
    without being interleaved: a schedule of the steps above. *)
Definition run_send (i : nat) (st : sys) : sys :=
  let st1 := set_spc st i SLocked (Some i) (out st) in
  let st2 := set_spc st1 i SLen (wlock st1) (out st1 ++ put_be 8 (wire_len (msg_of i))) in
  let st3 := set_spc st2 i SHdr (wlock st2) (out st2 ++ Header (msg_of i)) in
  let st4 := set_spc st3 i SBody (wlock st3) (out st3 ++ Body (msg_of i)) in
  set_spc st4 i SDone None (out st4).

End Interleaving.

(** Inputs of the witnesses below. *)
Definition wit_stream (ip : list byte) : stream := mkStream ip None [] [] false 0.
Definition wit_msg : Message := mkMessage [Byte.x01] [Byte.x02; Byte.x03].
Definition big_msg : Message := mkMessage (repeat Byte.x00 (Z.to_nat (max_len + 1))) [].
Definition wit_msgs : list Message := [wit_msg; mkMessage [] [Byte.x04]].

(** ** Lemmas on the byte codecs *)

Lemma Z_of_byte_range b : 0 <= Z_of_byte b < 256.
Proof. unfold Z_of_byte. pose proof (Byte.to_N_bounded b). lia. Qed.

Lemma Z_of_byte_of_Z z : Z_of_byte (byte_of_Z z) = z mod 256.
Proof.
  unfold byte_of_Z, Z_of_byte.
  destruct (Byte.of_N (Z.to_N (z mod 256))) eqn:E.
  - apply Byte.to_of_N in E. rewrite E. rewrite Z2N.id; [reflexivity|].
    apply Z.mod_pos_bound; lia.
  - apply Byte.of_N_None_iff in E. pose proof (Z.mod_pos_bound z 256). lia.
Qed.

Lemma Z_of_byte_inj a b : Z_of_byte a = Z_of_byte b -> a = b.
Proof.
  unfold Z_of_byte. intro H. apply N2Z.inj in H.
  pose proof (Byte.of_to_N a) as Ha. pose proof (Byte.of_to_N b) as Hb.
  rewrite H in Ha. congruence.
Qed.

Lemma lor_shiftl_byte a b : 0 <= b < 256 -> Z.lor (Z.shiftl a 8) b = a * 256 + b.
Proof.
  intro Hb. rewrite Z.shiftl_mul_pow2 by lia. change (2 ^ 8) with 256.
  rewrite <- Z.lxor_lor, <- Z.add_nocarry_lxor; [reflexivity| |];
  apply Z.bits_inj'; intros n Hn; rewrite Z.land_spec, Z.bits_0;
  (destruct (Z.lt_ge_cases n 8) as [Hl|Hl];
   [ replace (a * 256) with (Z.shiftl a 8) by (rewrite Z.shiftl_mul_pow2 by lia; reflexivity);
     rewrite Z.shiftl_spec_low by lia; reflexivity
   | replace b with (b mod 2 ^ 8) by (apply Z.mod_small; change (2^8) with 256; lia);
     rewrite Z.mod_pow2_bits_high by lia; apply andb_false_r ]).
Qed.

Lemma fold_get_be bs acc :
  fold_left (fun acc b => Z.lor (Z.shiftl acc 8) (Z_of_byte b)) bs acc
  = acc * 2 ^ (8 * Z.of_nat (length bs)) + get_be bs.
Proof.
  unfold get_be. revert acc. induction bs as [|b bs IH]; intro acc; cbn [fold_left length].
  - rewrite Z.mul_0_r, Z.pow_0_r. lia.
  - rewrite (IH (Z.lor (Z.shiftl acc 8) _)), (IH (Z.lor (Z.shiftl 0 8) _)).
    rewrite !lor_shiftl_byte by apply Z_of_byte_range.
    replace (8 * Z.of_nat (S (length bs))) with (8 + 8 * Z.of_nat (length bs)) by lia.
    rewrite Z.pow_add_r by lia. change (2^8) with 256. ring.
Qed.

Lemma get_be_range bs : 0 <= get_be bs < 2 ^ (8 * Z.of_nat (length bs)).
Proof.
  induction bs as [|b bs IH] using rev_ind.
  - unfold get_be. simpl. lia.
  - unfold get_be in *. rewrite fold_left_app. cbn [fold_left].
    rewrite lor_shiftl_byte by apply Z_of_byte_range.
    pose proof (Z_of_byte_range b).
    rewrite length_app. cbn [length].
    replace (8 * Z.of_nat (length bs + 1)) with (8 * Z.of_nat (length bs) + 8) by lia.
    rewrite Z.pow_add_r by lia. change (2^8) with 256. nia.
Qed.

Lemma get_be_put_be k v : get_be (put_be k v) = v mod 2 ^ (8 * Z.of_nat k).
Proof.
  induction k as [|k IH].
  - simpl. unfold get_be. simpl. rewrite Z.mod_1_r. reflexivity.
  - unfold get_be. cbn [put_be fold_left].
    rewrite fold_get_be, IH.
    rewrite lor_shiftl_byte by apply Z_of_byte_range.
    rewrite Z_of_byte_of_Z, Z.shiftr_div_pow2 by lia.
    assert (Hlen : length (put_be k v) = k) by (clear; induction k; simpl; auto).
    rewrite Hlen.
    replace (8 * Z.of_nat (S k)) with (8 * Z.of_nat k + 8) by lia.
    rewrite Z.pow_add_r by lia. change (2^8) with 256.
    set (q := 2 ^ (8 * Z.of_nat k)).
    assert (Hq : 0 < q) by (apply Z.pow_pos_nonneg; lia).
    rewrite Z.rem_mul_r by lia.
    ring.
Qed.

Lemma length_put_be k v : length (put_be k v) = k.
Proof. induction k; simpl; auto. Qed.

Lemma wire_len_small m :
  Z.of_nat (length (Header m) + length (Body m)) < 2 ^ 64 ->
  wire_len m = Z.of_nat (length (Header m) + length (Body m)).
Proof. intro H. unfold wire_len. apply Z.mod_small. lia. Qed.

Lemma get_be_put_be_64 m : get_be (put_be 8 (wire_len m)) = wire_len m.
Proof.
  rewrite get_be_put_be. unfold wire_len. simpl (8 * Z.of_nat 8).
  apply Z.mod_mod. lia.
Qed.

(** ** Lemmas on the pipe operations *)

Lemma Send_eq p msg :
  sclosed (conn_ p) = false ->
  Send msg p =
  (let '(e, w, pl) :=
     write_pieces_spec [put_be 8 (wire_len msg); Header msg; Body msg] (wplan (conn_ p)) in
   (option_map Io e,
    set_stream p (mkStream (sin (conn_ p)) (sin_err (conn_ p)) (sout (conn_ p) ++ w) pl
                   false (ncloses (conn_ p))))).
Proof.
  destruct p as [[si se so pl sc nc] rp lp op]; simpl; intros ->.
  unfold Send, bind, ret, c_write, lift, write, set_stream, wire_len; simpl.
  do 3 (try destruct pl as [|[|? ?] pl]); simpl; rewrite ?app_nil_r, <- ?app_assoc;
    reflexivity.
Qed.

Lemma read_full_prefix n s bs rest :
  (0 < n)%nat -> sclosed s = false -> sin s = bs ++ rest -> length bs = n ->
  read_full n s =
  (inr bs, mkStream rest (sin_err s) (sout s) (wplan s) (sclosed s) (ncloses s)).
Proof.
  intros Hn Hc Hin Hl. unfold read_full. rewrite Hc, Hin.
  destruct (Nat.eqb_spec n 0); [lia|].
  rewrite length_app. destruct (Nat.leb_spec n (length bs + length rest)); [|lia].
  rewrite firstn_app, skipn_app, <- Hl, firstn_all, Nat.sub_diag, skipn_all.
  simpl. rewrite app_nil_r. reflexivity.
Qed.

Lemma Recv_prefix p bs rest :
  sclosed (conn_ p) = false -> sin (conn_ p) = bs ++ rest -> length bs = 8%nat ->
  Recv p =
  (let s1 := mkStream rest (sin_err (conn_ p)) (sout (conn_ p)) (wplan (conn_ p))
               false (ncloses (conn_ p)) in
   let sz := to_int64 (get_be bs) in
   if (sz >? max_len) || (sz <? 0) then
     (inl ErrTooLong,
      set_stream p (mkStream rest (sin_err (conn_ p)) (sout (conn_ p)) (wplan (conn_ p))
                      true (S (ncloses (conn_ p)))))
   else
     match read_full (Z.to_nat sz) s1 with
     | (inl e, s2) => (inl (Io e), set_stream p s2)
     | (inr body, s2) => (inr (mkMessage [] body), set_stream p s2)
     end).
Proof.
  intros Hc Hin Hl.
  unfold Recv, bind at 1, c_read_full at 1, lift at 1.
  rewrite (read_full_prefix 8 (conn_ p) bs rest) by (auto; lia).
  rewrite Hc. cbv zeta.
  destruct ((to_int64 (get_be bs) >? max_len) || (to_int64 (get_be bs) <? 0));
    [reflexivity|].
  unfold bind, c_read_full, lift, ret, set_stream at 2; cbn [conn_].
  destruct (read_full _ _) as [[e|b] s2]; reflexivity.
Qed.

Lemma Recv_frame p m rest :
  sclosed (conn_ p) = false -> sin (conn_ p) = frame m ++ rest ->
  Z.of_nat (length (Header m) + length (Body m)) <= max_len ->
  Recv p =
  (inr (mkMessage [] (Header m ++ Body m)),
   set_stream p (mkStream rest (sin_err (conn_ p)) (sout (conn_ p)) (wplan (conn_ p))
                   false (ncloses (conn_ p)))).
Proof.
  intros Hc Hin Hb. unfold frame in Hin. rewrite <- app_assoc in Hin.
  rewrite (Recv_prefix p _ _ Hc Hin (length_put_be 8 _)). cbv zeta.
  rewrite get_be_put_be_64.
  unfold max_len in Hb.
  rewrite wire_len_small by lia.
  assert (H63 : to_int64 (Z.of_nat (length (Header m) + length (Body m)))
                = Z.of_nat (length (Header m) + length (Body m))).
  { unfold to_int64. destruct (Z.ltb_spec (Z.of_nat (length (Header m) + length (Body m))) (2 ^ 63));
    [reflexivity | lia]. }
  rewrite H63.
  replace ((Z.of_nat (length (Header m) + length (Body m)) >? max_len)
           || (Z.of_nat (length (Header m) + length (Body m)) <? 0)) with false
    by (unfold max_len; symmetry; apply orb_false_iff; split;
        [rewrite Z.gtb_ltb|]; apply Z.ltb_ge; lia).
  rewrite Nat2Z.id.
  destruct (Nat.eq_dec (length (Header m) + length (Body m)) 0) as [H0|H0].
  - destruct (Header m), (Body m); simpl in H0; try lia. reflexivity.
  - rewrite (read_full_prefix _ _ (Header m ++ Body m) rest) by (simpl; auto; try lia;
      rewrite ?length_app; auto; apply app_assoc).
    reflexivity.
Qed.

Lemma write_pieces_spec_ok pieces plan :
  Forall (fun w => w = WOk) (firstn (length pieces) plan) ->
  write_pieces_spec pieces plan = (None, concat pieces, skipn (length pieces) plan).
Proof.
  revert plan. induction pieces as [|bs pieces IH]; intros plan Hok; simpl; [reflexivity|].
  destruct plan as [|w plan].
  - simpl. rewrite IH by (destruct (length pieces); constructor).
    destruct (length pieces); reflexivity.
  - simpl in Hok. inversion Hok; subst. simpl. rewrite IH by assumption. reflexivity.
Qed.

Lemma Send_ok p msg :
  sclosed (conn_ p) = false ->
  Forall (fun w => w = WOk) (firstn 3 (wplan (conn_ p))) ->
  Send msg p =
  (None, set_stream p (mkStream (sin (conn_ p)) (sin_err (conn_ p))
                        (sout (conn_ p) ++ frame msg) (skipn 3 (wplan (conn_ p)))
                        false (ncloses (conn_ p)))).
Proof.
  intros Hc Hok. rewrite (Send_eq p msg Hc), write_pieces_spec_ok by exact Hok.
  simpl. unfold frame. rewrite app_nil_r. reflexivity.
Qed.

(** ** C1: round trip *)

(** C1. If the three writes of [Send (H, B)] succeed and [len(H)+len(B)]
    is within the bound, [Send] returns no error, and a [Recv] on the far
    end, whose input starts with the bytes [Send] wrote, returns the
    message with an empty header and body [H ++ B]. *)
Theorem Send_Recv_roundtrip p q msg rest e p' :
  sclosed (conn_ p) = false ->
  Forall (fun w => w = WOk) (firstn 3 (wplan (conn_ p))) ->
  sclosed (conn_ q) = false ->
  Z.of_nat (length (Header msg) + length (Body msg)) <= max_len ->
  Send msg p = (e, p') ->
  sin (conn_ q) = skipn (length (sout (conn_ p))) (sout (conn_ p')) ++ rest ->
  e = None /\ fst (Recv q) = inr (mkMessage [] (Header msg ++ Body msg)).
Proof.
  intros Hc Hok Hq Hb Hsend Hin.
  rewrite (Send_ok p msg Hc Hok) in Hsend. injection Hsend as <- <-.
  split; [reflexivity|].
  simpl in Hin. rewrite skipn_app, skipn_all, Nat.sub_diag in Hin. simpl in Hin.
  rewrite (Recv_frame q msg rest Hq Hin Hb). reflexivity.
Qed.


Lemma Send_Recv_roundtrip_witness :
  Send wit_msg (mkConn (wit_stream []) 0 1 true)
    = (None, snd (Send wit_msg (mkConn (wit_stream []) 0 1 true))) /\
  sin (wit_stream (frame wit_msg))
    = skipn 0 (sout (conn_ (snd (Send wit_msg (mkConn (wit_stream []) 0 1 true))))) ++ [] /\
  ((None : option err) = None /\
   fst (Recv (mkConn (wit_stream (frame wit_msg)) 0 1 true))
     = inr (mkMessage [] (Header wit_msg ++ Body wit_msg))).
Proof.
  split; [reflexivity|]. split; [vm_compute; reflexivity|].
  apply (Send_Recv_roundtrip (mkConn (wit_stream []) 0 1 true)
           (mkConn (wit_stream (frame wit_msg)) 0 1 true) wit_msg []
           None (snd (Send wit_msg (mkConn (wit_stream []) 0 1 true))));
    try reflexivity; try constructor; try (unfold max_len; simpl; lia).
Defined.

(** ** C2: the receive bound *)

Lemma read_full_ncloses n s :
  ncloses (snd (read_full n s)) = ncloses s /\ sclosed (snd (read_full n s)) = sclosed s.
Proof.
  unfold read_full. destruct (n =? 0)%nat; [auto|]. destruct (sclosed s) eqn:E; [auto|].
  destruct (n <=? length (sin s))%nat; simpl; auto.
Qed.

Lemma to_int64_bad L :
  0 <= L < 2 ^ 64 ->
  ((to_int64 L >? max_len) || (to_int64 L <? 0) = true <-> L > max_len \/ to_int64 L < 0).
Proof.
  intro HL. unfold to_int64, max_len.
  destruct (Z.ltb_spec L (2 ^ 63)); rewrite orb_true_iff, Z.gtb_ltb, !Z.ltb_lt; lia.
Qed.

(** C2. Let the first 8 bytes on the stream decode to [L].  [Recv] fails
    with [ErrTooLong] exactly when [L > 1048576] or [L] is negative as a
    signed 64-bit value; it then closes the stream, and otherwise does not
    close it.  Within the bound, [Recv] returns the next [L] bytes when they
    have arrived; [L = 1048576] is accepted and [L = 1048577] rejected. *)
Theorem Recv_length_bound p bs rest :
  sclosed (conn_ p) = false -> sin (conn_ p) = bs ++ rest -> length bs = 8%nat ->
  let L := get_be bs in
  (fst (Recv p) = inl ErrTooLong <-> L > max_len \/ to_int64 L < 0) /\
  (fst (Recv p) = inl ErrTooLong ->
     sclosed (conn_ (snd (Recv p))) = true /\
     ncloses (conn_ (snd (Recv p))) = S (ncloses (conn_ p))) /\
  (fst (Recv p) <> inl ErrTooLong ->
     sclosed (conn_ (snd (Recv p))) = false /\
     ncloses (conn_ (snd (Recv p))) = ncloses (conn_ p)) /\
  (~ (L > max_len \/ to_int64 L < 0) -> (Z.to_nat L <= length rest)%nat ->
     fst (Recv p) = inr (mkMessage [] (firstn (Z.to_nat L) rest))) /\
  (L = 1048576 -> fst (Recv p) <> inl ErrTooLong) /\
  (L = 1048577 -> fst (Recv p) = inl ErrTooLong).
Proof.
  intros Hc Hin Hl L.
  assert (HL : 0 <= L < 2 ^ 64).
  { pose proof (get_be_range bs) as R. rewrite Hl in R. exact R. }
  pose proof (to_int64_bad L HL) as Hbad.
  rewrite (Recv_prefix p bs rest Hc Hin Hl). cbv zeta. fold L.
  destruct ((to_int64 L >? max_len) || (to_int64 L <? 0)) eqn:E.
  - assert (Hb : L > max_len \/ to_int64 L < 0) by (apply Hbad; reflexivity).
    assert (Hi : L < 2 ^ 63 -> to_int64 L = L)
      by (intro; unfold to_int64; destruct (Z.ltb_spec L (2^63)); lia).
    simpl. repeat split; auto; try congruence; intros; try (exfalso; congruence);
      unfold max_len in *; try lia.
  - assert (Hb : ~ (L > max_len \/ to_int64 L < 0)) by (rewrite <- Hbad; congruence).
    assert (Hrd : forall A (f : ioerr -> A) (g : list byte -> A) s,
               match read_full (Z.to_nat (to_int64 L)) s with
               | (inl e, s2) => (f e, set_stream p s2)
               | (inr body, s2) => (g body, set_stream p s2)
               end
               = (match fst (read_full (Z.to_nat (to_int64 L)) s) with
                  | inl e => f e | inr body => g body end,
                  set_stream p (snd (read_full (Z.to_nat (to_int64 L)) s))))
      by (intros; destruct (read_full _ _) as [[]]; reflexivity).
    rewrite (Hrd _ (fun e => inl (Io e)) (fun body => inr (mkMessage [] body))).
    cbn [fst snd conn_ set_stream].
    pose proof (read_full_ncloses (Z.to_nat (to_int64 L))
                  (mkStream rest (sin_err (conn_ p)) (sout (conn_ p)) (wplan (conn_ p))
                     false (ncloses (conn_ p)))) as [Hn Hs].
    assert (Hnot : match fst (read_full (Z.to_nat (to_int64 L))
                      (mkStream rest (sin_err (conn_ p)) (sout (conn_ p)) (wplan (conn_ p))
                         false (ncloses (conn_ p)))) with
                   | inl e => @inl err Message (Io e)
                   | inr body => inr (mkMessage [] body) end <> inl ErrTooLong)
      by (destruct (fst _); congruence).
    assert (Hi : to_int64 L = L) by (unfold to_int64, max_len in *; destruct (Z.ltb_spec L (2^63)); lia).
    rewrite Hi in *.
    split; [split; [intro H; exfalso; exact (Hnot H) | intro H; exfalso; exact (Hb H)]|].
    split; [intro H; exfalso; exact (Hnot H)|].
    split; [split; assumption|].
    split.
    + intros _ Hlen. unfold read_full.
      destruct (Nat.eqb_spec (Z.to_nat L) 0) as [H0|H0].
      * simpl. rewrite H0. reflexivity.
      * simpl. destruct (Nat.leb_spec (Z.to_nat L) (length rest)); [reflexivity|lia].
    + split; intros HL'; [exact Hnot | exfalso; apply Hb; unfold max_len; lia].
Qed.

Lemma Recv_length_bound_witness :
  (sclosed (wit_stream (put_be 8 1048576)) = false /\
   sin (wit_stream (put_be 8 1048576)) = put_be 8 1048576 ++ [] /\
   length (put_be 8 1048576) = 8%nat) /\
  (let p := mkConn (wit_stream (put_be 8 1048576)) 0 1 true in
   let L := get_be (put_be 8 1048576) in
   (fst (Recv p) = inl ErrTooLong <-> L > max_len \/ to_int64 L < 0) /\
   (fst (Recv p) = inl ErrTooLong ->
      sclosed (conn_ (snd (Recv p))) = true /\
      ncloses (conn_ (snd (Recv p))) = S (ncloses (conn_ p))) /\
   (fst (Recv p) <> inl ErrTooLong ->
      sclosed (conn_ (snd (Recv p))) = false /\
      ncloses (conn_ (snd (Recv p))) = ncloses (conn_ p)) /\
   (~ (L > max_len \/ to_int64 L < 0) -> (Z.to_nat L <= length (@nil byte))%nat ->
      fst (Recv p) = inr (mkMessage [] (firstn (Z.to_nat L) (@nil byte)))) /\
   (L = 1048576 -> fst (Recv p) <> inl ErrTooLong) /\
   (L = 1048577 -> fst (Recv p) = inl ErrTooLong)).
Proof.
  split; [split; [reflexivity | split; reflexivity]|].
  exact (Recv_length_bound (mkConn (wit_stream (put_be 8 1048576)) 0 1 true)
           (put_be 8 1048576) [] eq_refl eq_refl eq_refl).
Defined.

(** ** Lemmas on the handshake *)

Lemma write_ok bs s :
  sclosed s = false -> Forall (fun w => w = WOk) (firstn 1 (wplan s)) ->
  write bs s = (None, mkStream (sin s) (sin_err s) (sout s ++ bs) (tl (wplan s)) false (ncloses s)).
Proof.
  intros Hc Hok. unfold write. rewrite Hc.
  destruct (wplan s) as [|[|k e] pl]; simpl in *; auto.
  inversion Hok; discriminate.
Qed.

Lemma Byte_eqb_false a b : Byte.eqb a b = false <-> a <> b.
Proof.
  split; [apply Byte.eqb_false|].
  intro H. destruct (Byte.eqb a b) eqn:E; [|reflexivity].
  exfalso. apply H, Byte.byte_dec_bl, E.
Qed.

Lemma get_be_2 a b : get_be [a; b] = Z_of_byte a * 256 + Z_of_byte b.
Proof.
  unfold get_be. cbn [fold_left].
  rewrite !lor_shiftl_byte by apply Z_of_byte_range. ring.
Qed.

Lemma get_be_2_zero a b : get_be [a; b] = 0 <-> a = Byte.x00 /\ b = Byte.x00.
Proof.
  rewrite get_be_2. pose proof (Z_of_byte_range a). pose proof (Z_of_byte_range b).
  split.
  - intro Hz. split; apply Z_of_byte_inj; change (Z_of_byte Byte.x00) with 0; lia.
  - intros [-> ->]. reflexivity.
Qed.

(** The check of line 159 on the bytes received. *)
Lemma bad_header_iff bs :
  bad_header (decode_header bs) = true <->
  nth 0 bs Byte.x00 <> Byte.x00 \/ nth 1 bs Byte.x00 <> Byte.x53 \/
  nth 2 bs Byte.x00 <> Byte.x50 \/ nth 6 bs Byte.x00 <> Byte.x00 \/
  nth 7 bs Byte.x00 <> Byte.x00.
Proof.
  unfold bad_header, decode_header. cbn [Zero S_ P_ Rsvd].
  rewrite !orb_true_iff, !negb_true_iff, !Byte_eqb_false, Z.eqb_neq, get_be_2_zero.
  destruct (Byte.byte_eq_dec (nth 6 bs Byte.x00) Byte.x00);
  destruct (Byte.byte_eq_dec (nth 7 bs Byte.x00) Byte.x00); tauto.
Qed.

Lemma handshake_eq p bs rest :
  sclosed (conn_ p) = false -> Forall (fun w => w = WOk) (firstn 1 (wplan (conn_ p))) ->
  sin (conn_ p) = bs ++ rest -> length bs = 8%nat ->
  handshake p =
  (let hdr := encode_header (mkConnHeader Byte.x00 Byte.x53 Byte.x50 Byte.x00 (lproto p) 0) in
   let s1 := mkStream rest (sin_err (conn_ p)) (sout (conn_ p) ++ hdr) (tl (wplan (conn_ p)))
               false (ncloses (conn_ p)) in
   let h := decode_header bs in
   if bad_header h then (Some ErrBadHeader, set_stream p (snd (close s1)))
   else if negb (Byte.eqb (Version h) Byte.x00) then
     (Some ErrBadVersion, set_stream p (snd (close s1)))
   else (None, mkConn s1 (Proto h) (lproto p) true)).
Proof.
  intros Hc Hok Hin Hl.
  unfold handshake, bind at 1, get at 1. cbv beta iota.
  unfold bind at 1, c_write at 1, lift at 1.
  rewrite (write_ok _ _ Hc Hok).
  unfold bind at 1, c_read_full at 1, lift at 1. cbn [conn_ set_stream].
  rewrite (read_full_prefix 8 _ bs rest) by (simpl; auto; lia).
  cbv zeta. cbn [sin_err sout wplan sclosed ncloses].
  destruct (bad_header (decode_header bs)); [reflexivity|].
  destruct (negb (Byte.eqb (Version (decode_header bs)) Byte.x00)); reflexivity.
Qed.

Lemma read_full_inr n s bs s' :
  read_full n s = (inr bs, s') -> sin s = bs ++ sin s' /\ length bs = n /\ sout s' = sout s.
Proof.
  unfold read_full. intro H.
  destruct (Nat.eqb_spec n 0) as [->|Hn]; [injection H as <- <-; auto|].
  destruct (sclosed s); [discriminate|].
  destruct (Nat.leb_spec n (length (sin s))); [|discriminate].
  injection H as <- <-. simpl. rewrite firstn_skipn, length_firstn. split; [auto|split; [lia|auto]].
Qed.

Lemma read_full_sout n s : sout (snd (read_full n s)) = sout s.
Proof.
  unfold read_full. destruct (n =? 0)%nat; [auto|]. destruct (sclosed s); [auto|].
  destruct (n <=? length (sin s))%nat; reflexivity.
Qed.

Lemma write_sin bs s : sin (snd (write bs s)) = sin s.
Proof.
  unfold write. destruct (sclosed s); [auto|]. destruct (wplan s) as [|[|k e] pl]; reflexivity.
Qed.

(** ** C3: validation of the peer's header *)

(** C3. After a successful write of its own header and a read of the
    peer's 8 bytes, the handshake fails with [ErrBadHeader] exactly when
    byte 0 is not 0, bytes 1 and 2 are not 'S' and 'P', or the reserved
    bytes 6 and 7 are not 0; it fails with [ErrBadVersion] exactly when
    these pass and the version byte 3 is not 0; both close the stream. *)
Theorem handshake_validation p bs rest :
  sclosed (conn_ p) = false -> Forall (fun w => w = WOk) (firstn 1 (wplan (conn_ p))) ->
  sin (conn_ p) = bs ++ rest -> length bs = 8%nat ->
  let bad := nth 0 bs Byte.x00 <> Byte.x00 \/ nth 1 bs Byte.x00 <> Byte.x53 \/
             nth 2 bs Byte.x00 <> Byte.x50 \/ nth 6 bs Byte.x00 <> Byte.x00 \/
             nth 7 bs Byte.x00 <> Byte.x00 in
  (fst (handshake p) = Some ErrBadHeader <-> bad) /\
  (fst (handshake p) = Some ErrBadVersion <-> ~ bad /\ nth 3 bs Byte.x00 <> Byte.x00) /\
  (fst (handshake p) = Some ErrBadHeader \/ fst (handshake p) = Some ErrBadVersion ->
   sclosed (conn_ (snd (handshake p))) = true).
Proof.
  intros Hc Hok Hin Hl bad.
  rewrite (handshake_eq p bs rest Hc Hok Hin Hl). cbv zeta.
  pose proof (bad_header_iff bs) as Hb. fold bad in Hb.
  destruct (bad_header (decode_header bs)) eqn:E.
  - assert (B : bad) by (apply Hb; reflexivity).
    simpl. repeat split; try tauto; congruence.
  - assert (NB : ~ bad) by (rewrite <- Hb; discriminate).
    destruct (negb (Byte.eqb (Version (decode_header bs)) Byte.x00)) eqn:V;
      rewrite negb_true_iff, Byte_eqb_false in V || rewrite negb_false_iff in V;
      simpl in V |- *.
    + repeat split; try tauto; congruence.
    + apply Byte.byte_dec_bl in V. cbn [Version decode_header] in V.
      split; [split; [discriminate | tauto]|].
      split; [split; [discriminate | intros [_ H3]; contradiction]|].
      intros [H1|H1]; discriminate.
Qed.

Lemma handshake_validation_witness :
  (sclosed (wit_stream [Byte.x00; Byte.x58; Byte.x50; Byte.x00; Byte.x00; Byte.x01; Byte.x00; Byte.x00])
     = false /\
   Forall (fun w => w = WOk) (firstn 1 (@nil wres)) /\
   sin (wit_stream [Byte.x00; Byte.x58; Byte.x50; Byte.x00; Byte.x00; Byte.x01; Byte.x00; Byte.x00])
     = [Byte.x00; Byte.x58; Byte.x50; Byte.x00; Byte.x00; Byte.x01; Byte.x00; Byte.x00] ++ [] /\
   length [Byte.x00; Byte.x58; Byte.x50; Byte.x00; Byte.x00; Byte.x01; Byte.x00; Byte.x00] = 8%nat) /\
  (let p := mkConn (wit_stream [Byte.x00; Byte.x58; Byte.x50; Byte.x00; Byte.x00; Byte.x01;
                                Byte.x00; Byte.x00]) 0 2 false in
   let bs := [Byte.x00; Byte.x58; Byte.x50; Byte.x00; Byte.x00; Byte.x01; Byte.x00; Byte.x00] in
   let bad := nth 0 bs Byte.x00 <> Byte.x00 \/ nth 1 bs Byte.x00 <> Byte.x53 \/
              nth 2 bs Byte.x00 <> Byte.x50 \/ nth 6 bs Byte.x00 <> Byte.x00 \/
              nth 7 bs Byte.x00 <> Byte.x00 in
   (fst (handshake p) = Some ErrBadHeader <-> bad) /\
   (fst (handshake p) = Some ErrBadVersion <-> ~ bad /\ nth 3 bs Byte.x00 <> Byte.x00) /\
   (fst (handshake p) = Some ErrBadHeader \/ fst (handshake p) = Some ErrBadVersion ->
    sclosed (conn_ (snd (handshake p))) = true)).
Proof.
  split; [repeat split; constructor|].
  exact (handshake_validation
           (mkConn (wit_stream [Byte.x00; Byte.x58; Byte.x50; Byte.x00; Byte.x00; Byte.x01;
                                Byte.x00; Byte.x00]) 0 2 false)
           [Byte.x00; Byte.x58; Byte.x50; Byte.x00; Byte.x00; Byte.x01; Byte.x00; Byte.x00] []
           eq_refl (Forall_nil _) eq_refl eq_refl).
Defined.

(** ** C4: I/O errors of the handshake *)

(** C4 (write path).  When the write of the handshake header fails with
    transport error [e], the handshake returns [e] unchanged but leaves the
    stream open: [Close] is not called on this path. *)
Theorem handshake_write_error_not_closed p k e pl :
  sclosed (conn_ p) = false -> wplan (conn_ p) = WFail k e :: pl ->
  fst (handshake p) = Some (Io e) /\
  sclosed (conn_ (snd (handshake p))) = false /\
  ncloses (conn_ (snd (handshake p))) = ncloses (conn_ p).
Proof.
  intros Hc Hpl.
  unfold handshake, bind, get, c_write, lift, write. cbv beta iota.
  rewrite Hc, Hpl. simpl. auto.
Qed.

Lemma handshake_write_error_not_closed_witness :
  (sclosed (mkStream [] None [] [WFail 3 (ErrTransport 104)] false 0) = false /\
   wplan (mkStream [] None [] [WFail 3 (ErrTransport 104)] false 0)
     = WFail 3 (ErrTransport 104) :: []) /\
  (let p := mkConn (mkStream [] None [] [WFail 3 (ErrTransport 104)] false 0) 0 1 false in
   fst (handshake p) = Some (Io (ErrTransport 104)) /\
   sclosed (conn_ (snd (handshake p))) = false /\
   ncloses (conn_ (snd (handshake p))) = ncloses (conn_ p)).
Proof.
  split; [split; reflexivity|].
  exact (handshake_write_error_not_closed
           (mkConn (mkStream [] None [] [WFail 3 (ErrTransport 104)] false 0) 0 1 false)
           3 (ErrTransport 104) [] eq_refl eq_refl).
Defined.

(** ** C5: the constructor *)

Lemma handshake_success p p' :
  handshake p = (None, p') ->
  exists bs rest,
    sin (conn_ p) = bs ++ rest /\ length bs = 8%nat /\
    rproto p' = get_be [nth 4 bs Byte.x00; nth 5 bs Byte.x00] /\
    lproto p' = lproto p /\ open p' = true.
Proof.
  unfold handshake, bind at 1, get at 1. cbv beta iota.
  unfold bind at 1, c_write at 1, lift at 1.
  destruct (write _ (conn_ p)) as [[we|] s1] eqn:Ew; [unfold ret; discriminate|].
  unfold bind at 1, c_read_full at 1, lift at 1. cbn [conn_ set_stream].
  destruct (read_full 8 s1) as [[re|bs] s2] eqn:Er.
  - unfold bind, c_close, lift, ret, close. cbn. discriminate.
  - apply read_full_inr in Er as [Hin [Hl _]].
    pose proof (write_sin (encode_header (mkConnHeader Byte.x00 Byte.x53 Byte.x50 Byte.x00
                                            (lproto p) 0)) (conn_ p)) as Hs.
    rewrite Ew in Hs. simpl in Hs.
    destruct (bad_header (decode_header bs)).
    { unfold bind, c_close, lift, ret, close. cbn. discriminate. }
    destruct (negb (Byte.eqb (Version (decode_header bs)) Byte.x00)).
    { unfold bind, c_close, lift, ret, close. cbn. discriminate. }
    unfold bind, set_rproto, set_open, ret. cbn. intro H. injection H as <-.
    exists bs, (sin s2). cbn. rewrite <- Hs, Hin. auto.
Qed.

(** C5. [NewConnPipe] returns a pipe exactly when the handshake succeeds,
    and otherwise returns the handshake's error and no pipe.  A returned
    pipe reports as remote protocol the 16-bit big-endian number at bytes
    4 and 5 of the peer's header, as local protocol the [lproto] argument,
    and is open. *)
Theorem NewConnPipe_spec c lp :
  ((exists p', fst (NewConnPipe c lp) = inr p') <->
     fst (handshake (mkConn c 0 lp false)) = None) /\
  (forall e, fst (NewConnPipe c lp) = inl e <->
     fst (handshake (mkConn c 0 lp false)) = Some e) /\
  (forall p', fst (NewConnPipe c lp) = inr p' ->
     (exists bs rest, sin c = bs ++ rest /\ length bs = 8%nat /\
        fst (RemoteProtocol p') = get_be [nth 4 bs Byte.x00; nth 5 bs Byte.x00]) /\
     0 <= fst (RemoteProtocol p') < 2 ^ 16 /\
     fst (LocalProtocol p') = lp /\ fst (IsOpen p') = true).
Proof.
  unfold NewConnPipe.
  destruct (handshake (mkConn c 0 lp false)) as [[e|] p'] eqn:E; cbn [fst].
  - split; [split; [intros [p'' H]; discriminate | discriminate]|].
    split; [intro e'; split; intro H; congruence|].
    intros p'' H; discriminate.
  - split; [split; [reflexivity | intros _; eauto]|].
    split; [intro e'; split; intro H; discriminate|].
    intros p'' H. injection H as <-.
    apply handshake_success in E as (bs & rest & Hin & Hl & Hr & Hlp & Ho).
    unfold RemoteProtocol, LocalProtocol, IsOpen, bind, get, ret. cbn [fst].
    split; [exists bs, rest; auto|].
    split; [rewrite Hr; apply (get_be_range [_; _])|].
    auto.
Qed.

(** ** C7: the header the handshake sends *)

Lemma close_sout s : sout (snd (close s)) = sout s.
Proof. reflexivity. Qed.

(** C7. With a 16-bit local protocol number and a successful write, the
    handshake writes exactly the 8 bytes 0, 'S', 'P', 0, the protocol
    number high byte then low byte, 0, 0, and nothing else. *)
Theorem handshake_header_bytes p :
  sclosed (conn_ p) = false -> Forall (fun w => w = WOk) (firstn 1 (wplan (conn_ p))) ->
  0 <= lproto p < 2 ^ 16 ->
  exists b4 b5,
    sout (conn_ (snd (handshake p))) =
      sout (conn_ p) ++ [Byte.x00; Byte.x53; Byte.x50; Byte.x00; b4; b5; Byte.x00; Byte.x00] /\
    Z_of_byte b4 = lproto p / 256 /\ Z_of_byte b5 = lproto p mod 256.
Proof.
  intros Hc Hok Hr.
  exists (byte_of_Z (Z.shiftr (lproto p) 8)), (byte_of_Z (Z.shiftr (lproto p) 0)).
  split.
  - unfold handshake, bind at 1, get at 1. cbv beta iota.
    unfold bind at 1, c_write at 1, lift at 1.
    rewrite (write_ok _ _ Hc Hok).
    unfold bind at 1, c_read_full at 1, lift at 1. cbn [conn_ set_stream].
    pose proof (read_full_sout 8 (mkStream (sin (conn_ p)) (sin_err (conn_ p))
       (sout (conn_ p) ++ encode_header (mkConnHeader Byte.x00 Byte.x53 Byte.x50 Byte.x00
                                           (lproto p) 0))
       (tl (wplan (conn_ p))) false (ncloses (conn_ p)))) as Hs.
    destruct (read_full 8 _) as [[re|bs] s2]; cbn [snd sout] in Hs.
    + unfold bind, c_close, lift, ret, close. cbn. rewrite Hs. reflexivity.
    + destruct (bad_header (decode_header bs));
      [|destruct (negb (Byte.eqb (Version (decode_header bs)) Byte.x00))];
      unfold bind, c_close, lift, ret, close, set_rproto, set_open; cbn; rewrite Hs; reflexivity.
  - rewrite !Z_of_byte_of_Z, Z.shiftr_0_r, Z.shiftr_div_pow2 by lia.
    change (2 ^ 8) with 256. split; [|reflexivity].
    apply Z.mod_small. split; [apply Z.div_pos; lia | apply Z.div_lt_upper_bound; lia].
Qed.

Lemma handshake_header_bytes_witness :
  (sclosed (wit_stream []) = false /\ Forall (fun w => w = WOk) (firstn 1 (@nil wres)) /\
   0 <= 258 < 2 ^ 16) /\
  exists b4 b5,
    sout (conn_ (snd (handshake (mkConn (wit_stream []) 0 258 false)))) =
      sout (wit_stream []) ++ [Byte.x00; Byte.x53; Byte.x50; Byte.x00; b4; b5; Byte.x00; Byte.x00] /\
    Z_of_byte b4 = 258 / 256 /\ Z_of_byte b5 = 258 mod 256.
Proof.
  split; [split; [reflexivity | split; [constructor | lia]]|].
  apply (handshake_header_bytes (mkConn (wit_stream []) 0 258 false) eq_refl (Forall_nil _)).
  simpl. lia.
Defined.

(** ** C8: Close *)

(** C8. Every call of [Close] marks the pipe not open, so [IsOpen] then
    returns false, and calls the stream's [Close] once: the stream is
    closed and its close count grows by one.  The result is the stream's
    own result, an error when the stream was already closed. *)
Theorem Close_spec p :
  fst (IsOpen (snd (Close p))) = false /\
  sclosed (conn_ (snd (Close p))) = true /\
  ncloses (conn_ (snd (Close p))) = S (ncloses (conn_ p)) /\
  fst (Close p) = (if sclosed (conn_ p) then Some (Io ErrClosed) else None) /\
  (forall n, fst (IsOpen (Nat.iter n (fun q => snd (Close q)) (snd (Close p)))) = false /\
             ncloses (conn_ (Nat.iter n (fun q => snd (Close q)) (snd (Close p))))
               = (S n + ncloses (conn_ p))%nat).
Proof.
  assert (Hone : forall q, fst (IsOpen (snd (Close q))) = false /\
                   sclosed (conn_ (snd (Close q))) = true /\
                   ncloses (conn_ (snd (Close q))) = S (ncloses (conn_ q)) /\
                   fst (Close q) = (if sclosed (conn_ q) then Some (Io ErrClosed) else None)).
  { intro q. unfold Close, IsOpen, set_open, c_close, lift, close, bind, get, ret, set_stream.
    cbn. destruct (sclosed (conn_ q)); auto. }
  destruct (Hone p) as (H1 & H2 & H3 & H4). repeat split; auto.
  - destruct n; [exact H1|]. exact (proj1 (Hone _)).
  - induction n as [|n IH]; [exact H3|].
    rewrite Nat.iter_succ. rewrite (proj1 (proj2 (proj2 (Hone _)))), IH. reflexivity.
Qed.

(** ** C6: what Send writes *)

(** C6. On an open stream, [Send] behaves as the spec's send path
    [write_pieces_spec] on the three pieces: the 8-byte big-endian length
    [len(Header) + len(Body)], the header, the body, in this order, each
    one write; the first failing write ends the send with its error (as
    [Io e]) and no later piece is written. *)
Theorem Send_wire_format p msg :
  sclosed (conn_ p) = false ->
  Send msg p =
  (let '(e, w, pl) :=
     write_pieces_spec [put_be 8 (wire_len msg); Header msg; Body msg] (wplan (conn_ p)) in
   (option_map Io e,
    set_stream p (mkStream (sin (conn_ p)) (sin_err (conn_ p)) (sout (conn_ p) ++ w) pl
                   false (ncloses (conn_ p))))) /\
  length (put_be 8 (wire_len msg)) = 8%nat /\
  (Z.of_nat (length (Header msg) + length (Body msg)) < 2 ^ 64 ->
   get_be (put_be 8 (wire_len msg)) = Z.of_nat (length (Header msg) + length (Body msg))).
Proof.
  intro Hc. split; [exact (Send_eq p msg Hc)|].
  split; [apply length_put_be|].
  intro Hl. rewrite get_be_put_be_64. apply wire_len_small, Hl.
Qed.

Lemma Send_wire_format_witness :
  sclosed (mkStream [] None [] [WOk; WFail 1 (ErrTransport 32)] false 0) = false /\
  (let p := mkConn (mkStream [] None [] [WOk; WFail 1 (ErrTransport 32)] false 0) 0 1 true in
   Send wit_msg p =
   (let '(e, w, pl) :=
      write_pieces_spec [put_be 8 (wire_len wit_msg); Header wit_msg; Body wit_msg]
        (wplan (conn_ p)) in
    (option_map Io e,
     set_stream p (mkStream (sin (conn_ p)) (sin_err (conn_ p)) (sout (conn_ p) ++ w) pl
                    false (ncloses (conn_ p))))) /\
   length (put_be 8 (wire_len wit_msg)) = 8%nat /\
   (Z.of_nat (length (Header wit_msg) + length (Body wit_msg)) < 2 ^ 64 ->
    get_be (put_be 8 (wire_len wit_msg))
    = Z.of_nat (length (Header wit_msg) + length (Body wit_msg)))).
Proof.
  split; [reflexivity|].
  exact (Send_wire_format
           (mkConn (mkStream [] None [] [WOk; WFail 1 (ErrTransport 32)] false 0) 0 1 true)
           wit_msg eq_refl).
Defined.

(** ** C10: no bound on the send path *)

(** C10. [Send] does not check the length against the bound: a message
    longer than 1048576 bytes is sent, as one frame, without error when the
    writes succeed, and a [Recv] reading that frame rejects it with
    [ErrTooLong]. *)
Theorem Send_no_bound p msg :
  sclosed (conn_ p) = false ->
  Forall (fun w => w = WOk) (firstn 3 (wplan (conn_ p))) ->
  max_len < Z.of_nat (length (Header msg) + length (Body msg)) < 2 ^ 64 ->
  fst (Send msg p) = None /\
  sout (conn_ (snd (Send msg p))) = sout (conn_ p) ++ frame msg /\
  (forall q rest, sclosed (conn_ q) = false -> sin (conn_ q) = frame msg ++ rest ->
     fst (Recv q) = inl ErrTooLong).
Proof.
  intros Hc Hok Hb.
  rewrite (Send_ok p msg Hc Hok). split; [reflexivity|]. split; [reflexivity|].
  intros q rest Hq Hin. unfold frame in Hin. rewrite <- app_assoc in Hin.
  rewrite (Recv_prefix q _ _ Hq Hin (length_put_be 8 _)). cbv zeta.
  rewrite get_be_put_be_64, wire_len_small by lia.
  assert (HL : 0 <= Z.of_nat (length (Header msg) + length (Body msg)) < 2 ^ 64) by lia.
  assert (Hgt : Z.of_nat (length (Header msg) + length (Body msg)) > max_len) by lia.
  rewrite (proj2 (to_int64_bad _ HL) (or_introl Hgt)). reflexivity.
Qed.


Lemma Send_no_bound_witness :
  (sclosed (wit_stream []) = false /\
   Forall (fun w => w = WOk) (firstn 3 (@nil wres)) /\
   max_len < Z.of_nat (length (Header big_msg) + length (Body big_msg)) < 2 ^ 64) /\
  (fst (Send big_msg (mkConn (wit_stream []) 0 1 true)) = None /\
   sout (conn_ (snd (Send big_msg (mkConn (wit_stream []) 0 1 true))))
     = sout (wit_stream []) ++ frame big_msg /\
   (forall q rest, sclosed (conn_ q) = false -> sin (conn_ q) = frame big_msg ++ rest ->
      fst (Recv q) = inl ErrTooLong)).
Proof.
  assert (Hb : max_len < Z.of_nat (length (Header big_msg) + length (Body big_msg)) < 2 ^ 64).
  { unfold big_msg. cbn [Header Body]. rewrite repeat_length, Nat.add_0_r, Z2Nat.id;
      unfold max_len; lia. }
  split; [split; [reflexivity | split; [constructor | exact Hb]]|].
  exact (Send_no_bound (mkConn (wit_stream []) 0 1 true) big_msg eq_refl (Forall_nil _) Hb).
Defined.

(** ** C9: concurrent callers *)

Lemma upd_same {A} (f : nat -> A) i x : upd f i x i = x.
Proof. unfold upd. rewrite Nat.eqb_refl. reflexivity. Qed.

Lemma upd_other {A} (f : nat -> A) i j x : j <> i -> upd f i x j = f j.
Proof. intro H. unfold upd. destruct (Nat.eqb_spec j i); [contradiction | reflexivity]. Qed.

Ltac upd_cases j i :=
  destruct (Nat.eq_dec j i) as [->|?];
  [rewrite ?upd_same in * | rewrite ?upd_other in * by assumption].

Lemma send_inv_init msgs ip : send_inv msgs (init ip).
Proof.
  unfold send_inv, init. cbn [spcs wlock out].
  split; [auto|]. split; [discriminate|]. split; [discriminate|].
  exists []. split; [constructor|]. split; [|reflexivity].
  intro i. simpl. split; [contradiction | discriminate].
Qed.

(** A goroutine inside the critical section is a sender of [msgs] and
    holds [wlock]. *)
Lemma send_inv_holder msgs st i :
  send_inv msgs st -> in_cs (spcs st i) = true ->
  wlock st = Some i /\ (i < length msgs)%nat.
Proof.
  intros (H1 & H2 & _) Hc. split; [auto|].
  destruct (Nat.lt_ge_cases i (length msgs)) as [|Hge]; [assumption|].
  rewrite (H1 i Hge) in Hc. discriminate.
Qed.

Lemma send_inv_step msgs nrecv st st' :
  send_inv msgs st -> step msgs nrecv st st' -> send_inv msgs st'.
Proof.
  intros Hinv Hs.
  destruct Hs as [st i Hi Hpc Hw | st i Hpc | st i Hpc | st i Hpc | st i Hpc
                 | st j Hj Hpc Hw | st j bs rest Hpc Hin Hl | st j sz Hpc Hb
                 | st j sz body rest Hpc Hb Hin Hl | st j body Hpc];
    pose proof (fun i => send_inv_holder msgs st i Hinv) as Hh;
    destruct Hinv as (H1 & H2 & H3 & order & Hnd & Hmem & Hout);
    unfold send_inv, set_spc, set_rpc; cbn [spcs wlock out];
    (* the receiving goroutines do not touch the sending side *)
    try (refine (conj H1 (conj H2 (conj H3 _))); exists order; auto; fail).
  - (* p.wlock.Lock() *)
    split; [intros k Hk; upd_cases k i; [lia | auto]|].
    split; [intros k Hk; upd_cases k i; [reflexivity | rewrite (H2 k Hk) in Hw; discriminate]|].
    split; [intros k Hk; injection Hk as <-; rewrite upd_same; reflexivity|].
    exists order. split; [assumption|]. split.
    + intro k. upd_cases k i; [rewrite Hmem, Hpc; split; discriminate | apply Hmem].
    + rewrite Hout, Hw, upd_same. reflexivity.
  - (* binary.Write of the length *)
    destruct (Hh i) as [Hwi Hi]; [rewrite Hpc; reflexivity|].
    split; [intros k Hk; upd_cases k i; [lia | auto]|].
    split; [intros k Hk; upd_cases k i; [exact Hwi | auto]|].
    split; [intros k Hk; rewrite Hwi in Hk; injection Hk as <-; rewrite upd_same; reflexivity|].
    exists order. split; [assumption|]. split.
    + intro k. upd_cases k i; [rewrite Hmem, Hpc; split; discriminate | apply Hmem].
    + rewrite Hout, Hwi, Hpc, upd_same. cbn [partial]. rewrite app_nil_r. reflexivity.
  - (* p.conn.Write(msg.Header) *)
    destruct (Hh i) as [Hwi Hi]; [rewrite Hpc; reflexivity|].
    split; [intros k Hk; upd_cases k i; [lia | auto]|].
    split; [intros k Hk; upd_cases k i; [exact Hwi | auto]|].
    split; [intros k Hk; rewrite Hwi in Hk; injection Hk as <-; rewrite upd_same; reflexivity|].
    exists order. split; [assumption|]. split.
    + intro k. upd_cases k i; [rewrite Hmem, Hpc; split; discriminate | apply Hmem].
    + rewrite Hout, Hwi, Hpc, upd_same. cbn [partial]. rewrite <- !app_assoc. reflexivity.
  - (* p.conn.Write(msg.Body) *)
    destruct (Hh i) as [Hwi Hi]; [rewrite Hpc; reflexivity|].
    split; [intros k Hk; upd_cases k i; [lia | auto]|].
    split; [intros k Hk; upd_cases k i; [exact Hwi | auto]|].
    split; [intros k Hk; rewrite Hwi in Hk; injection Hk as <-; rewrite upd_same; reflexivity|].
    assert (Hni : ~ In i order) by (rewrite Hmem, Hpc; discriminate).
    exists (order ++ [i]). split.
    + apply (Permutation_NoDup (Permutation_cons_append order i)). constructor; assumption.
    + split.
      * intro k. rewrite in_app_iff. simpl. upd_cases k i.
        -- split; [reflexivity | auto].
        -- rewrite Hmem. split; [intros [?|[?|[]]]; [assumption | congruence] | auto].
      * rewrite Hout, Hwi, Hpc, upd_same. cbn [partial].
        rewrite map_app, concat_app. simpl. unfold frame. rewrite !app_nil_r, <- !app_assoc.
        reflexivity.
  - (* return, running the deferred p.wlock.Unlock() *)
    destruct (Hh i) as [Hwi Hi]; [rewrite Hpc; reflexivity|].
    split; [intros k Hk; upd_cases k i; [lia | auto]|].
    split; [intros k Hk; upd_cases k i; [discriminate | rewrite (H2 k Hk) in Hwi; congruence]|].
    split; [discriminate|].
    exists order. split; [assumption|]. split.
    + intro k. upd_cases k i; [rewrite Hmem, Hpc; split; reflexivity | apply Hmem].
    + rewrite Hout, Hwi, Hpc. reflexivity.
Qed.

Lemma send_inv_steps msgs nrecv st st' :
  steps msgs nrecv st st' -> send_inv msgs st -> send_inv msgs st'.
Proof.
  induction 1 as [st|st1 st2 st3 Hs _ IH]; [auto|].
  intro H. apply IH, (send_inv_step msgs nrecv st1 st2 H Hs).
Qed.

(** When every sender has returned, the stream is the concatenation of
    one complete frame per sender, in some order. *)
Lemma send_inv_done msgs st :
  send_inv msgs st -> (forall i, (i < length msgs)%nat -> spcs st i = SDone) ->
  exists order, Permutation order (seq 0 (length msgs)) /\
    out st = concat (map (fun i => frame (msg_of msgs i)) order).
Proof.
  intros Hinv Hd. pose proof (fun i => send_inv_holder msgs st i Hinv) as Hh.
  destruct Hinv as (H1 & H2 & H3 & order & Hnd & Hmem & Hout).
  assert (Hw : wlock st = None).
  { destruct (wlock st) as [i|] eqn:E; [|reflexivity].
    specialize (H3 i eq_refl). destruct (Hh i H3) as [_ Hi]. rewrite (Hd i Hi) in H3. discriminate. }
  exists order. split.
  - apply NoDup_Permutation; [assumption | apply seq_NoDup |].
    intro k. rewrite Hmem, in_seq.
    destruct (Nat.lt_ge_cases k (length msgs)) as [Hk|Hk].
    + rewrite (Hd k Hk). split; [lia | reflexivity].
    + rewrite (H1 k Hk). split; [discriminate | lia].
  - rewrite Hout, Hw, app_nil_r. reflexivity.
Qed.

(** A receiver reading a stream of complete frames, each within the
    bound, gets back each message's header and body, in order. *)
Lemma recv_n_frames ms q rest :
  sclosed (conn_ q) = false -> sin (conn_ q) = concat (map frame ms) ++ rest ->
  Forall (fun m => Z.of_nat (length (Header m) + length (Body m)) <= max_len) ms ->
  fst (recv_n (length ms) q) = map (fun m => inr (mkMessage [] (Header m ++ Body m))) ms.
Proof.
  revert q. induction ms as [|m ms IH]; intros q Hc Hin Hb; [reflexivity|].
  inversion Hb as [|? ? Hm Hms]; subst.
  cbn [length recv_n]. unfold bind at 1.
  cbn [map concat] in Hin. rewrite <- app_assoc in Hin.
  rewrite (Recv_frame q m _ Hc Hin Hm).
  unfold bind. specialize (IH (set_stream q (mkStream (concat (map frame ms) ++ rest)
     (sin_err (conn_ q)) (sout (conn_ q)) (wplan (conn_ q)) false (ncloses (conn_ q))))
     eq_refl eq_refl Hms).
  destruct (recv_n (length ms) _) as [rs q'] eqn:E. cbn [fst] in IH |- *.
  rewrite IH. reflexivity.
Qed.

(** C9. Take any interleaving of [length msgs] goroutines calling [Send]
    and [nrecv] goroutines calling [Recv] on one pipe.  Once every sender
    has returned, the stream holds exactly one complete frame per message,
    frames not interleaved, in some order of the senders; a receiver
    reading it gets every message whole, in that order.  Taking [wlock]
    does not depend on [rlock] nor changes the receivers, and taking
    [rlock] does not depend on [wlock] nor changes the senders. *)
Theorem concurrent_sends_not_interleaved msgs nrecv ip st :
  steps msgs nrecv (init ip) st ->
  (forall i, (i < length msgs)%nat -> spcs st i = SDone) ->
  (exists order,
     Permutation order (seq 0 (length msgs)) /\
     out st = concat (map (fun i => frame (msg_of msgs i)) order) /\
     (Forall (fun m => Z.of_nat (length (Header m) + length (Body m)) <= max_len) msgs ->
      forall q rest, sclosed (conn_ q) = false -> sin (conn_ q) = out st ++ rest ->
      fst (recv_n (length msgs) q) =
      map (fun i => inr (mkMessage [] (Header (msg_of msgs i) ++ Body (msg_of msgs i)))) order)) /\
  (forall st1 i, (i < length msgs)%nat -> spcs st1 i = SStart -> wlock st1 = None ->
     exists st2, step msgs nrecv st1 st2 /\
       rlock st2 = rlock st1 /\ rpcs st2 = rpcs st1 /\ inp st2 = inp st1) /\
  (forall st1 j, (j < nrecv)%nat -> rpcs st1 j = RStart -> rlock st1 = None ->
     exists st2, step msgs nrecv st1 st2 /\
       wlock st2 = wlock st1 /\ spcs st2 = spcs st1 /\ out st2 = out st1).
Proof.
  intros Hsteps Hd.
  split; [|split].
  - destruct (send_inv_done msgs st (send_inv_steps msgs nrecv _ _ Hsteps (send_inv_init msgs ip)) Hd)
      as (order & Hperm & Hout).
    exists order. split; [assumption|]. split; [assumption|].
    intros Hb q rest Hc Hin.
    assert (Hlen : length msgs = length (map (msg_of msgs) order)).
    { rewrite length_map, (Permutation_length Hperm), length_seq. reflexivity. }
    rewrite Hlen, (recv_n_frames (map (msg_of msgs) order) q rest Hc).
    + rewrite map_map. reflexivity.
    + rewrite Hin, Hout, map_map. reflexivity.
    + apply Forall_forall. intros m Hm. apply in_map_iff in Hm as (i & <- & Hi).
      apply (Permutation_in _ Hperm), in_seq in Hi.
      rewrite Forall_forall in Hb. apply Hb, nth_In. lia.
  - intros st1 i Hi Hpc Hw. eexists. split; [apply (step_wlock msgs nrecv st1 i Hi Hpc Hw)|].
    auto.
  - intros st1 j Hj Hpc Hr. eexists. split; [apply (step_rlock msgs nrecv st1 j Hj Hpc Hr)|].
    auto.
Qed.

Lemma steps_trans msgs nrecv a b c :
  steps msgs nrecv a b -> steps msgs nrecv b c -> steps msgs nrecv a c.
Proof.
  induction 1 as [|a a' b Hs _ IH]; [auto|].
  intro H. exact (steps_cons msgs nrecv a a' c Hs (IH H)).
Qed.

Lemma steps_run_send msgs nrecv i st :
  (i < length msgs)%nat -> spcs st i = SStart -> wlock st = None ->
  steps msgs nrecv st (run_send msgs i st).
Proof.
  intros Hi Hpc Hw. unfold run_send. cbv zeta.
  eapply steps_cons; [exact (step_wlock msgs nrecv st i Hi Hpc Hw)|].
  eapply steps_cons; [apply step_wlen; apply upd_same|].
  eapply steps_cons; [apply step_whdr; apply upd_same|].
  eapply steps_cons; [apply step_wbody; apply upd_same|].
  eapply steps_cons; [apply step_wunlock; apply upd_same|].
  apply steps_refl.
Qed.

Lemma concurrent_sends_not_interleaved_witness :
  let st := run_send wit_msgs 1 (run_send wit_msgs 0 (init [])) in
  (steps wit_msgs 1 (init []) st /\
   (forall i, (i < length wit_msgs)%nat -> spcs st i = SDone)) /\
  ((exists order,
     Permutation order (seq 0 (length wit_msgs)) /\
     out st = concat (map (fun i => frame (msg_of wit_msgs i)) order) /\
     (Forall (fun m => Z.of_nat (length (Header m) + length (Body m)) <= max_len) wit_msgs ->
      forall q rest, sclosed (conn_ q) = false -> sin (conn_ q) = out st ++ rest ->
      fst (recv_n (length wit_msgs) q) =
      map (fun i => inr (mkMessage [] (Header (msg_of wit_msgs i) ++ Body (msg_of wit_msgs i))))
        order)) /\
  (forall st1 i, (i < length wit_msgs)%nat -> spcs st1 i = SStart -> wlock st1 = None ->
     exists st2, step wit_msgs 1 st1 st2 /\
       rlock st2 = rlock st1 /\ rpcs st2 = rpcs st1 /\ inp st2 = inp st1) /\
  (forall st1 j, (j < 1)%nat -> rpcs st1 j = RStart -> rlock st1 = None ->
     exists st2, step wit_msgs 1 st1 st2 /\
       wlock st2 = wlock st1 /\ spcs st2 = spcs st1 /\ out st2 = out st1)).
Proof.
  intro st.
  assert (Hs : steps wit_msgs 1 (init []) st).
  { apply (steps_trans _ _ _ (run_send wit_msgs 0 (init []))).
    - apply steps_run_send; [simpl; lia | reflexivity | reflexivity].
    - apply steps_run_send; [simpl; lia | reflexivity | reflexivity]. }
  assert (Hd : forall i, (i < length wit_msgs)%nat -> spcs st i = SDone).
  { intros i Hi. destruct i as [|[|i]]; [reflexivity | reflexivity | simpl in Hi; lia]. }
  split; [split; assumption|].
  exact (concurrent_sends_not_interleaved wit_msgs 1 [] st Hs Hd).
Defined.

(** * Further properties of the pipe *)

(** ** Helper lemmas *)

Lemma decode_encode_header h :
  0 <= Proto h < 2 ^ 16 -> 0 <= Rsvd h < 2 ^ 16 ->
  decode_header (encode_header h) = h.
Proof.
  intros HP HR. destruct h as [z s p v pr rs]. cbn [Proto Rsvd] in *.
  assert (E2 : forall v, get_be (put_be 2 v) = v mod 2 ^ 16) by (intro; apply get_be_put_be).
  unfold decode_header, encode_header. cbn [Zero S_ P_ Version Proto Rsvd].
  change (get_be [nth 4 ([z; s; p; v] ++ put_be 2 pr ++ put_be 2 rs) Byte.x00;
                  nth 5 ([z; s; p; v] ++ put_be 2 pr ++ put_be 2 rs) Byte.x00])
    with (get_be (put_be 2 pr)).
  change (get_be [nth 6 ([z; s; p; v] ++ put_be 2 pr ++ put_be 2 rs) Byte.x00;
                  nth 7 ([z; s; p; v] ++ put_be 2 pr ++ put_be 2 rs) Byte.x00])
    with (get_be (put_be 2 rs)).
  rewrite !E2, !Z.mod_small by assumption. reflexivity.
Qed.

Lemma length_encode_header h : length (encode_header h) = 8%nat.
Proof. reflexivity. Qed.

Lemma handshake_sout p :
  sclosed (conn_ p) = false -> Forall (fun w => w = WOk) (firstn 1 (wplan (conn_ p))) ->
  sout (conn_ (snd (handshake p))) =
  sout (conn_ p) ++ encode_header (mkConnHeader Byte.x00 Byte.x53 Byte.x50 Byte.x00 (lproto p) 0).
Proof.
  intros Hc Hok.
  unfold handshake, bind at 1, get at 1. cbv beta iota.
  unfold bind at 1, c_write at 1, lift at 1.
  rewrite (write_ok _ _ Hc Hok).
  unfold bind at 1, c_read_full at 1, lift at 1. cbn [conn_ set_stream].
  pose proof (read_full_sout 8 (mkStream (sin (conn_ p)) (sin_err (conn_ p))
     (sout (conn_ p) ++ encode_header (mkConnHeader Byte.x00 Byte.x53 Byte.x50 Byte.x00
                                         (lproto p) 0))
     (tl (wplan (conn_ p))) false (ncloses (conn_ p)))) as Hs.
  destruct (read_full 8 _) as [[re|bs] s2]; cbn [snd sout] in Hs.
  - unfold bind, c_close, lift, ret, close. cbn. rewrite Hs. reflexivity.
  - destruct (bad_header (decode_header bs));
    [|destruct (negb (Byte.eqb (Version (decode_header bs)) Byte.x00))];
    unfold bind, c_close, lift, ret, close, set_rproto, set_open; cbn; rewrite Hs; reflexivity.
Qed.

Lemma write_pieces_spec_prefix pieces plan e w pl :
  write_pieces_spec pieces plan = (e, w, pl) ->
  exists k, w = firstn k (concat pieces) /\ (e = None -> w = concat pieces).
Proof.
  revert plan e w pl. induction pieces as [|bs pieces IH]; intros plan e w pl H.
  - injection H as <- <- <-. exists 0%nat. auto.
  - cbn [write_pieces_spec concat] in H |- *.
    assert (Hgen : (let '(e0, w0, pl0) := write_pieces_spec pieces (tl plan) in
                    (e0, bs ++ w0, pl0)) = (e, w, pl) ->
                   exists k, w = firstn k (bs ++ concat pieces) /\
                             (e = None -> w = bs ++ concat pieces)).
    { destruct (write_pieces_spec pieces (tl plan)) as [[e0 w0] pl0] eqn:E.
      intro H'. injection H' as <- <- <-.
      destruct (IH _ _ _ _ E) as (k & Hk & Hn).
      exists (length bs + k)%nat. split.
      - rewrite firstn_app. replace (length bs + k - length bs)%nat with k by lia.
        rewrite firstn_all2 by lia. rewrite Hk. reflexivity.
      - intro He. rewrite Hn by exact He. reflexivity. }
    destruct plan as [|[|k e0] plan]; try exact (Hgen H).
    injection H as <- <- <-.
    destruct (Nat.le_gt_cases k (length bs)) as [Hk|Hk].
    + exists k. split; [|discriminate].
      rewrite firstn_app. replace (k - length bs)%nat with 0%nat by lia.
      rewrite app_nil_r. reflexivity.
    + exists (length bs). split; [|discriminate].
      rewrite firstn_all2 by lia. rewrite firstn_app, Nat.sub_diag, firstn_all.
      rewrite app_nil_r. reflexivity.
Qed.

Lemma Recv_shape p :
  sout (conn_ (snd (Recv p))) = sout (conn_ p) /\
  wplan (conn_ (snd (Recv p))) = wplan (conn_ p) /\
  lproto (snd (Recv p)) = lproto p /\ rproto (snd (Recv p)) = rproto p /\
  open (snd (Recv p)) = open p /\
  (fst (Recv p) <> inl ErrTooLong ->
   ncloses (conn_ (snd (Recv p))) = ncloses (conn_ p) /\
   sclosed (conn_ (snd (Recv p))) = sclosed (conn_ p)).
Proof.
  pose proof (read_full_sout 8 (conn_ p)) as Hs1.
  pose proof (read_full_ncloses 8 (conn_ p)) as [Hn1 Hc1].
  assert (Hw1 : wplan (snd (read_full 8 (conn_ p))) = wplan (conn_ p)).
  { unfold read_full. destruct (8 =? 0)%nat; [auto|]. destruct (sclosed (conn_ p)); [auto|].
    destruct (8 <=? length (sin (conn_ p)))%nat; reflexivity. }
  unfold Recv, bind, c_read_full, c_close, lift, ret.
  destruct (read_full 8 (conn_ p)) as [[e|bs] s1]; cbn [fst snd] in *.
  - cbn. repeat split; auto.
  - destruct ((to_int64 (get_be bs) >? max_len) || (to_int64 (get_be bs) <? 0)).
    + unfold close. cbn. rewrite Hs1, Hw1.
      repeat split; auto; exfalso; match goal with H : _ <> _ |- _ => apply H; reflexivity end.
    + pose proof (read_full_sout (Z.to_nat (to_int64 (get_be bs))) s1) as Hs2.
      pose proof (read_full_ncloses (Z.to_nat (to_int64 (get_be bs))) s1) as [Hn2 Hc2].
      assert (Hw2 : wplan (snd (read_full (Z.to_nat (to_int64 (get_be bs))) s1)) = wplan s1).
      { unfold read_full. destruct (_ =? 0)%nat; [auto|]. destruct (sclosed s1); [auto|].
        destruct (_ <=? length (sin s1))%nat; reflexivity. }
      cbn [conn_ set_stream] in *.
      destruct (read_full _ s1) as [[e|b] s2]; cbn in *;
        rewrite Hs2, Hs1, Hw2, Hw1; repeat split; auto; congruence.
Qed.

Lemma Recv_too_long_closes p :
  fst (Recv p) = inl ErrTooLong ->
  sclosed (conn_ (snd (Recv p))) = true /\
  ncloses (conn_ (snd (Recv p))) = S (ncloses (conn_ p)).
Proof.
  pose proof (read_full_ncloses 8 (conn_ p)) as [Hn1 Hc1].
  unfold Recv, bind, c_read_full, c_close, lift, ret.
  destruct (read_full 8 (conn_ p)) as [[e|bs] s1]; cbn [fst snd] in *.
  - cbn. discriminate.
  - destruct ((to_int64 (get_be bs) >? max_len) || (to_int64 (get_be bs) <? 0)).
    + unfold close. cbn. rewrite Hn1. auto.
    + destruct (read_full _ (conn_ (set_stream p s1))) as [[e|b] s2]; cbn; discriminate.
Qed.

Lemma Forall_firstn_add {A} (P : A -> Prop) a b l :
  Forall P (firstn (a + b) l) -> Forall P (firstn a l) /\ Forall P (firstn b (skipn a l)).
Proof.
  revert l. induction a as [|a IH]; intros l H; [split; [constructor | exact H]|].
  destruct l as [|x l]; [split; [constructor | rewrite skipn_nil, firstn_nil; constructor]|].
  cbn in H. inversion H as [|? ? Hx Hl]; subst.
  destruct (IH l Hl) as [H1 H2]. split; [constructor; assumption | exact H2].
Qed.

Lemma Send_closed p msg :
  sclosed (conn_ p) = true -> Send msg p = (Some (Io ErrClosed), p).
Proof.
  intro Hc. unfold Send, bind, c_write, lift, write, ret. rewrite Hc.
  destruct p; reflexivity.
Qed.

Lemma Recv_closed p :
  sclosed (conn_ p) = true -> Recv p = (inl (Io ErrClosed), p).
Proof.
  intro Hc. unfold Recv, bind, c_read_full, lift, read_full, ret. rewrite Hc.
  destruct p; reflexivity.
Qed.

Lemma write_None bs s s' :
  write bs s = (None, s') ->
  sclosed s = false /\ sclosed s' = false /\ ncloses s' = ncloses s.
Proof.
  unfold write. destruct (sclosed s); [discriminate|].
  destruct (wplan s) as [|[|k e] pl]; intro H; try discriminate;
    injection H as <-; auto.
Qed.

Lemma NewConnPipe_sout c lp :
  sclosed c = false -> Forall (fun w => w = WOk) (firstn 1 (wplan c)) ->
  sout (snd (NewConnPipe c lp)) =
  sout c ++ encode_header (mkConnHeader Byte.x00 Byte.x53 Byte.x50 Byte.x00 lp 0).
Proof.
  intros Hc Hok. pose proof (handshake_sout (mkConn c 0 lp false) Hc Hok) as H.
  unfold NewConnPipe. destruct (handshake (mkConn c 0 lp false)) as [[e|] p']; exact H.
Qed.

Lemma handshake_accepts p lq rest :
  sclosed (conn_ p) = false -> Forall (fun w => w = WOk) (firstn 1 (wplan (conn_ p))) ->
  0 <= lq < 2 ^ 16 ->
  sin (conn_ p) = encode_header (mkConnHeader Byte.x00 Byte.x53 Byte.x50 Byte.x00 lq 0) ++ rest ->
  handshake p =
  (None, mkConn (mkStream rest (sin_err (conn_ p))
                   (sout (conn_ p) ++ encode_header (mkConnHeader Byte.x00 Byte.x53 Byte.x50
                                                       Byte.x00 (lproto p) 0))
                   (tl (wplan (conn_ p))) false (ncloses (conn_ p))) lq (lproto p) true).
Proof.
  intros Hc Hok Hq Hin.
  rewrite (handshake_eq p _ rest Hc Hok Hin (length_encode_header _)). cbv zeta.
  rewrite decode_encode_header by (cbn [Proto Rsvd]; lia). reflexivity.
Qed.

Lemma get_be_cons a l :
  get_be (a :: l) = Z_of_byte a * 2 ^ (8 * Z.of_nat (length l)) + get_be l.
Proof.
  unfold get_be at 1. cbn [fold_left]. rewrite fold_get_be.
  rewrite lor_shiftl_byte by apply Z_of_byte_range. ring.
Qed.

Lemma get_be_inj l1 l2 : length l1 = length l2 -> get_be l1 = get_be l2 -> l1 = l2.
Proof.
  revert l2. induction l1 as [|a l1 IH]; intros [|b l2] Hl Hg; try discriminate; [reflexivity|].
  injection Hl as Hl. rewrite !get_be_cons, <- Hl in Hg.
  pose proof (get_be_range l1) as R1. pose proof (get_be_range l2) as R2. rewrite <- Hl in R2.
  set (q := 2 ^ (8 * Z.of_nat (length l1))) in *.
  assert (Hq : 0 < q) by (apply Z.pow_pos_nonneg; lia).
  assert (Ha : (Z_of_byte a * q + get_be l1) / q = Z_of_byte a)
    by (rewrite Z.add_comm, Z.div_add, Z.div_small by lia; lia).
  assert (Hb : (Z_of_byte b * q + get_be l2) / q = Z_of_byte b)
    by (rewrite Z.add_comm, Z.div_add, Z.div_small by lia; lia).
  assert (Eab : Z_of_byte a = Z_of_byte b) by (rewrite <- Ha, <- Hb, Hg; reflexivity).
  apply Z_of_byte_inj in Eab as <-. f_equal. apply IH; [exact Hl | lia].
Qed.

Lemma put_be_get_be bs : put_be (length bs) (get_be bs) = bs.
Proof.
  apply get_be_inj; [apply length_put_be|].
  rewrite get_be_put_be. apply Z.mod_small, get_be_range.
Qed.

(** ** Extra properties *)



(** X2. Two peers running [NewConnPipe] against each other, with 16-bit
    protocol numbers and working writes, where each one's input starts
    with the header the other wrote: both succeed, each pipe is open,
    reports its own protocol as local and the peer's as remote, and the
    handshake consumes exactly the 8 header bytes of the input. *)
Theorem NewConnPipe_pair c d lp lq rc rd :
  sclosed c = false -> Forall (fun w => w = WOk) (firstn 1 (wplan c)) ->
  sclosed d = false -> Forall (fun w => w = WOk) (firstn 1 (wplan d)) ->
  0 <= lp < 2 ^ 16 -> 0 <= lq < 2 ^ 16 ->
  sin c = skipn (length (sout d)) (sout (snd (NewConnPipe d lq))) ++ rc ->
  sin d = skipn (length (sout c)) (sout (snd (NewConnPipe c lp))) ++ rd ->
  exists pc pd,
    fst (NewConnPipe c lp) = inr pc /\ fst (NewConnPipe d lq) = inr pd /\
    fst (LocalProtocol pc) = lp /\ fst (RemoteProtocol pc) = lq /\ fst (IsOpen pc) = true /\
    fst (LocalProtocol pd) = lq /\ fst (RemoteProtocol pd) = lp /\ fst (IsOpen pd) = true /\
    sin (conn_ pc) = rc /\ sin (conn_ pd) = rd.
Proof.
  intros Hc Hokc Hd Hokd Hp Hq Hinc Hind.
  rewrite (NewConnPipe_sout d lq Hd Hokd), skipn_app, skipn_all, Nat.sub_diag in Hinc.
  rewrite (NewConnPipe_sout c lp Hc Hokc), skipn_app, skipn_all, Nat.sub_diag in Hind.
  cbn [app skipn] in Hinc, Hind.
  unfold NewConnPipe.
  rewrite (handshake_accepts (mkConn c 0 lp false) lq rc Hc Hokc Hq Hinc).
  rewrite (handshake_accepts (mkConn d 0 lq false) lp rd Hd Hokd Hp Hind).
  do 2 eexists. repeat split; reflexivity.
Qed.

Lemma NewConnPipe_pair_witness :
  let c := wit_stream (encode_header (mkConnHeader Byte.x00 Byte.x53 Byte.x50 Byte.x00 2 0)) in
  let d := wit_stream (encode_header (mkConnHeader Byte.x00 Byte.x53 Byte.x50 Byte.x00 1 0)) in
  (sclosed c = false /\ Forall (fun w => w = WOk) (firstn 1 (wplan c)) /\
   sclosed d = false /\ Forall (fun w => w = WOk) (firstn 1 (wplan d)) /\
   0 <= 1 < 2 ^ 16 /\ 0 <= 2 < 2 ^ 16 /\
   sin c = skipn (length (sout d)) (sout (snd (NewConnPipe d 2))) ++ [] /\
   sin d = skipn (length (sout c)) (sout (snd (NewConnPipe c 1))) ++ []) /\
  exists pc pd,
    fst (NewConnPipe c 1) = inr pc /\ fst (NewConnPipe d 2) = inr pd /\
    fst (LocalProtocol pc) = 1 /\ fst (RemoteProtocol pc) = 2 /\ fst (IsOpen pc) = true /\
    fst (LocalProtocol pd) = 2 /\ fst (RemoteProtocol pd) = 1 /\ fst (IsOpen pd) = true /\
    sin (conn_ pc) = [] /\ sin (conn_ pd) = [].
Proof.
  intros c d.
  assert (H1 : sin c = skipn (length (sout d)) (sout (snd (NewConnPipe d 2))) ++ [])
    by (vm_compute; reflexivity).
  assert (H2 : sin d = skipn (length (sout c)) (sout (snd (NewConnPipe c 1))) ++ [])
    by (vm_compute; reflexivity).
  split; [repeat split; try constructor; try lia; assumption|].
  exact (NewConnPipe_pair c d 1 2 [] [] eq_refl (Forall_nil _) eq_refl (Forall_nil _)
           ltac:(lia) ltac:(lia) H1 H2).
Defined.



(** X4. A frame within the bound that is cut off after its length field
    (the peer then ending the stream): [Recv] returns [io.EOF] when no
    byte of the body arrived and [io.ErrUnexpectedEOF] otherwise, consumes
    the partial body, and does not close the stream. *)
Theorem Recv_truncated_frame p m k :
  sclosed (conn_ p) = false -> sin_err (conn_ p) = None ->
  Z.of_nat (length (Header m) + length (Body m)) <= max_len ->
  (8 <= k < length (frame m))%nat ->
  sin (conn_ p) = firstn k (frame m) ->
  fst (Recv p) = inl (Io (if (k =? 8)%nat then EOF else ErrUnexpectedEOF)) /\
  sin (conn_ (snd (Recv p))) = [] /\
  sclosed (conn_ (snd (Recv p))) = false /\
  ncloses (conn_ (snd (Recv p))) = ncloses (conn_ p).
Proof.
  intros Hc He Hb Hk Hin.
  assert (Hfl : length (frame m) = (8 + (length (Header m) + length (Body m)))%nat)
    by (unfold frame; rewrite !length_app, length_put_be; reflexivity).
  rewrite Hfl in Hk.
  assert (Hin' : sin (conn_ p) = put_be 8 (wire_len m) ++ firstn (k - 8) (Header m ++ Body m)).
  { rewrite Hin. unfold frame. rewrite firstn_app, length_put_be, firstn_all2 by (rewrite ?length_put_be; lia).
    reflexivity. }
  rewrite (Recv_prefix p _ _ Hc Hin' (length_put_be 8 _)). cbv zeta.
  unfold max_len in Hb.
  rewrite get_be_put_be_64, wire_len_small by lia.
  assert (Hf : length (firstn (k - 8) (Header m ++ Body m)) = (k - 8)%nat)
    by (rewrite length_firstn, length_app; lia).
  set (L := (length (Header m) + length (Body m))%nat) in *.
  assert (H63 : to_int64 (Z.of_nat L) = Z.of_nat L).
  { unfold to_int64. destruct (Z.ltb_spec (Z.of_nat L) (2 ^ 63)); [reflexivity | lia]. }
  rewrite H63.
  replace ((Z.of_nat L >? max_len) || (Z.of_nat L <? 0)) with false
    by (unfold max_len; symmetry; apply orb_false_iff; split;
        [rewrite Z.gtb_ltb|]; apply Z.ltb_ge; lia).
  rewrite Nat2Z.id.
  unfold read_full. cbn [sin sclosed sin_err]. rewrite Hf, He.
  destruct (Nat.eqb_spec L 0); [lia|].
  destruct (Nat.leb_spec L (k - 8)); [lia|].
  replace ((k - 8 =? 0)%nat) with ((k =? 8)%nat)
    by (destruct (Nat.eqb_spec (k - 8) 0), (Nat.eqb_spec k 8); try reflexivity; lia).
  cbn. auto.
Qed.

Lemma Recv_truncated_frame_witness :
  (sclosed (wit_stream (firstn 9 (frame wit_msg))) = false /\
   sin_err (wit_stream (firstn 9 (frame wit_msg))) = None /\
   Z.of_nat (length (Header wit_msg) + length (Body wit_msg)) <= max_len /\
   (8 <= 9 < length (frame wit_msg))%nat /\
   sin (wit_stream (firstn 9 (frame wit_msg))) = firstn 9 (frame wit_msg)) /\
  (let p := mkConn (wit_stream (firstn 9 (frame wit_msg))) 0 1 true in
   fst (Recv p) = inl (Io ErrUnexpectedEOF) /\
   sin (conn_ (snd (Recv p))) = [] /\
   sclosed (conn_ (snd (Recv p))) = false /\
   ncloses (conn_ (snd (Recv p))) = ncloses (conn_ p)).
Proof.
  assert (Hk : (8 <= 9 < length (frame wit_msg))%nat)
    by (split; [lia | apply Nat.ltb_lt; reflexivity]).
  assert (Hb : Z.of_nat (length (Header wit_msg) + length (Body wit_msg)) <= max_len)
    by (unfold max_len; cbn; lia).
  split; [repeat split; try reflexivity; try apply Hk; exact Hb|].
  exact (Recv_truncated_frame (mkConn (wit_stream (firstn 9 (frame wit_msg))) 0 1 true)
           wit_msg 9 eq_refl eq_refl Hb Hk eq_refl).
Defined.

(** X5. [Close] neither reads nor writes the stream and keeps both
    protocol numbers; afterwards [Send], [Recv] and a second [Close] fail
    with the closed-connection error, and [Send] and [Recv] then leave the
    pipe and the stream unchanged (in particular [Send] writes nothing). *)
Theorem ops_after_Close p msg :
  let p' := snd (Close p) in
  sin (conn_ p') = sin (conn_ p) /\ sout (conn_ p') = sout (conn_ p) /\
  wplan (conn_ p') = wplan (conn_ p) /\
  lproto p' = lproto p /\ rproto p' = rproto p /\
  Send msg p' = (Some (Io ErrClosed), p') /\
  Recv p' = (inl (Io ErrClosed), p') /\
  fst (Close p') = Some (Io ErrClosed).
Proof.
  intro p'. assert (Hc : sclosed (conn_ p') = true) by reflexivity.
  do 5 (split; [reflexivity|]).
  split; [apply Send_closed, Hc|]. split; [apply Recv_closed, Hc|].
  reflexivity.
Qed.

(** X6. Two [Send] calls in a row on an open stream whose next six writes
    succeed both return no error and put the two frames on the wire one
    after the other, using up six write outcomes; a receiver whose input
    starts with these bytes gets both messages back in order when both
    are within the bound. *)
Theorem Send_twice p m1 m2 :
  sclosed (conn_ p) = false -> Forall (fun w => w = WOk) (firstn 6 (wplan (conn_ p))) ->
  let p1 := snd (Send m1 p) in
  let p2 := snd (Send m2 p1) in
  fst (Send m1 p) = None /\ fst (Send m2 p1) = None /\
  sout (conn_ p2) = sout (conn_ p) ++ frame m1 ++ frame m2 /\
  wplan (conn_ p2) = skipn 6 (wplan (conn_ p)) /\
  (Z.of_nat (length (Header m1) + length (Body m1)) <= max_len ->
   Z.of_nat (length (Header m2) + length (Body m2)) <= max_len ->
   forall q rest, sclosed (conn_ q) = false ->
   sin (conn_ q) = skipn (length (sout (conn_ p))) (sout (conn_ p2)) ++ rest ->
   fst (recv_n 2 q) = [inr (mkMessage [] (Header m1 ++ Body m1));
                       inr (mkMessage [] (Header m2 ++ Body m2))]).
Proof.
  intros Hc Hok p1 p2.
  apply (Forall_firstn_add _ 3 3) in Hok as [Hok1 Hok2].
  unfold p2, p1. rewrite (Send_ok p m1 Hc Hok1). cbn [fst snd].
  rewrite (Send_ok (set_stream p (mkStream (sin (conn_ p)) (sin_err (conn_ p))
                                   (sout (conn_ p) ++ frame m1) (skipn 3 (wplan (conn_ p)))
                                   false (ncloses (conn_ p)))) m2 eq_refl Hok2).
  cbn [fst snd conn_ set_stream sout wplan].
  split; [reflexivity|]. split; [reflexivity|].
  split; [rewrite app_assoc; reflexivity|].
  split; [apply skipn_skipn|].
  intros Hb1 Hb2 q rest Hq Hin.
  rewrite <- app_assoc, skipn_app, skipn_all, Nat.sub_diag in Hin. cbn [app skipn] in Hin.
  apply (recv_n_frames [m1; m2] q rest Hq); [|constructor; [exact Hb1 | constructor; [exact Hb2 | constructor]]].
  rewrite Hin. cbn [map concat]. rewrite app_nil_r, <- !app_assoc. reflexivity.
Qed.

Lemma Send_twice_witness :
  (sclosed (wit_stream []) = false /\ Forall (fun w => w = WOk) (firstn 6 (@nil wres))) /\
  (let p := mkConn (wit_stream []) 0 1 true in
   let m2 := mkMessage [] [Byte.x04] in
   let p1 := snd (Send wit_msg p) in
   let p2 := snd (Send m2 p1) in
   fst (Send wit_msg p) = None /\ fst (Send m2 p1) = None /\
   sout (conn_ p2) = sout (conn_ p) ++ frame wit_msg ++ frame m2 /\
   wplan (conn_ p2) = skipn 6 (wplan (conn_ p)) /\
   (Z.of_nat (length (Header wit_msg) + length (Body wit_msg)) <= max_len ->
    Z.of_nat (length (Header m2) + length (Body m2)) <= max_len ->
    forall q rest, sclosed (conn_ q) = false ->
    sin (conn_ q) = skipn (length (sout (conn_ p))) (sout (conn_ p2)) ++ rest ->
    fst (recv_n 2 q) = [inr (mkMessage [] (Header wit_msg ++ Body wit_msg));
                        inr (mkMessage [] (Header m2 ++ Body m2))])).
Proof.
  split; [split; [reflexivity | constructor]|].
  exact (Send_twice (mkConn (wit_stream []) 0 1 true) wit_msg (mkMessage [] [Byte.x04])
           eq_refl (Forall_nil _)).
Defined.

(** X7. [Recv] never writes to the stream, never changes the protocol
    numbers or the open flag (even when it closes the stream), and calls
    the stream's [Close] exactly when it returns [ErrTooLong], once. *)
Theorem Recv_effects p :
  sout (conn_ (snd (Recv p))) = sout (conn_ p) /\
  wplan (conn_ (snd (Recv p))) = wplan (conn_ p) /\
  lproto (snd (Recv p)) = lproto p /\ rproto (snd (Recv p)) = rproto p /\
  open (snd (Recv p)) = open p /\
  (fst (Recv p) = inl ErrTooLong ->
   sclosed (conn_ (snd (Recv p))) = true /\
   ncloses (conn_ (snd (Recv p))) = S (ncloses (conn_ p))) /\
  (fst (Recv p) <> inl ErrTooLong ->
   ncloses (conn_ (snd (Recv p))) = ncloses (conn_ p) /\
   sclosed (conn_ (snd (Recv p))) = sclosed (conn_ p)).
Proof.
  destruct (Recv_shape p) as (H1 & H2 & H3 & H4 & H5 & H6).
  repeat (split; [assumption|]). split; [apply Recv_too_long_closes | exact H6].
Qed.

(** X8. [Send] never reads the input, never closes the stream, never
    changes the protocol numbers or the open flag, and what it writes is
    always a prefix of the frame of the message: the whole frame when it
    returns no error, nothing at all on a closed stream. *)
Theorem Send_effects p msg :
  sin (conn_ (snd (Send msg p))) = sin (conn_ p) /\
  sclosed (conn_ (snd (Send msg p))) = sclosed (conn_ p) /\
  ncloses (conn_ (snd (Send msg p))) = ncloses (conn_ p) /\
  lproto (snd (Send msg p)) = lproto p /\ rproto (snd (Send msg p)) = rproto p /\
  open (snd (Send msg p)) = open p /\
  (exists k, sout (conn_ (snd (Send msg p))) = sout (conn_ p) ++ firstn k (frame msg)) /\
  (fst (Send msg p) = None -> sout (conn_ (snd (Send msg p))) = sout (conn_ p) ++ frame msg) /\
  (sclosed (conn_ p) = true -> sout (conn_ (snd (Send msg p))) = sout (conn_ p)).
Proof.
  destruct (sclosed (conn_ p)) eqn:Hc.
  - rewrite (Send_closed p msg Hc). cbn [fst snd].
    do 6 (split; [auto|]).
    split; [exists 0%nat; cbn [firstn]; rewrite app_nil_r; reflexivity|].
    split; [discriminate | reflexivity].
  - rewrite (Send_eq p msg Hc).
    destruct (write_pieces_spec _ (wplan (conn_ p))) as [[e w] pl] eqn:E.
    apply write_pieces_spec_prefix in E as (k & Hk & Hn).
    cbn [concat] in Hk, Hn. rewrite app_nil_r in Hk, Hn.
    cbn [fst snd conn_ set_stream sin sout sclosed ncloses lproto rproto open].
    do 6 (split; [reflexivity|]).
    split; [exists k; rewrite Hk; reflexivity|].
    split; [|discriminate].
    intro He. rewrite Hn by (destruct e; [discriminate | reflexivity]). reflexivity.
Qed.

(** X9. The handshake keeps the local protocol number; when it fails it
    leaves the open flag and the remote protocol number as they were, and
    when it succeeds the pipe is open and the stream was not closed. *)
Theorem handshake_effects p :
  lproto (snd (handshake p)) = lproto p /\
  (fst (handshake p) <> None ->
   open (snd (handshake p)) = open p /\ rproto (snd (handshake p)) = rproto p) /\
  (fst (handshake p) = None ->
   open (snd (handshake p)) = true /\ sclosed (conn_ (snd (handshake p))) = false /\
   ncloses (conn_ (snd (handshake p))) = ncloses (conn_ p)).
Proof.
  destruct (handshake p) as [r q] eqn:E. cbn [fst snd].
  unfold handshake, bind at 1, get at 1 in E. cbv beta iota in E.
  unfold bind at 1, c_write at 1, lift at 1 in E.
  destruct (write (encode_header (mkConnHeader Byte.x00 Byte.x53 Byte.x50 Byte.x00 (lproto p) 0))
                  (conn_ p)) as [[we|] s1] eqn:Ew.
  - unfold ret in E. injection E as <- <-. cbn.
    split; [reflexivity|]. split; [auto|]. discriminate.
  - apply write_None in Ew as (_ & Hc1 & Hn1).
    unfold bind at 1, c_read_full at 1, lift at 1 in E. cbn [conn_ set_stream] in E.
    pose proof (read_full_ncloses 8 s1) as [Hn2 Hc2].
    destruct (read_full 8 s1) as [[re|bs] s2]; cbn [snd] in Hn2, Hc2.
    + unfold bind, c_close, lift, ret, close in E. cbn in E. injection E as <- <-. cbn.
      split; [reflexivity|]. split; [auto|]. discriminate.
    + destruct (bad_header (decode_header bs));
        [|destruct (negb (Byte.eqb (Version (decode_header bs)) Byte.x00))].
      1, 2: unfold bind, c_close, lift, ret, close in E; cbn in E; injection E as <- <-; cbn;
            split; [reflexivity|]; split; [auto|]; discriminate.
      unfold bind, set_rproto, set_open, ret in E. cbn in E. injection E as <- <-. cbn.
      split; [reflexivity|]. split; [intro H; contradiction H; reflexivity|].
      intros _. rewrite Hc2, Hn2. auto.
Qed.

(** X10. The handshake header's encoding is 8 bytes long and decodes back
    to the header when both 16-bit fields fit; conversely, any 8 bytes
    read decode to a header whose encoding gives the same 8 bytes back. *)
Theorem connHeader_roundtrip h :
  0 <= Proto h < 2 ^ 16 -> 0 <= Rsvd h < 2 ^ 16 ->
  length (encode_header h) = 8%nat /\ decode_header (encode_header h) = h /\
  (forall bs, length bs = 8%nat -> encode_header (decode_header bs) = bs).
Proof.
  intros HP HR. split; [apply length_encode_header|].
  split; [apply decode_encode_header; assumption|].
  intros bs Hl.
  destruct bs as [|b0 [|b1 [|b2 [|b3 [|b4 [|b5 [|b6 [|b7 [|b8 bs]]]]]]]]];
    try discriminate.
  unfold encode_header, decode_header. cbn [nth Zero S_ P_ Version Proto Rsvd].
  pose proof (put_be_get_be [b4; b5]) as E1. pose proof (put_be_get_be [b6; b7]) as E2.
  cbn [length] in E1, E2. rewrite E1, E2. reflexivity.
Qed.

Lemma connHeader_roundtrip_witness :
  (0 <= Proto (mkConnHeader Byte.x00 Byte.x53 Byte.x50 Byte.x00 258 0) < 2 ^ 16 /\
   0 <= Rsvd (mkConnHeader Byte.x00 Byte.x53 Byte.x50 Byte.x00 258 0) < 2 ^ 16) /\
  (length (encode_header (mkConnHeader Byte.x00 Byte.x53 Byte.x50 Byte.x00 258 0)) = 8%nat /\
   decode_header (encode_header (mkConnHeader Byte.x00 Byte.x53 Byte.x50 Byte.x00 258 0))
     = mkConnHeader Byte.x00 Byte.x53 Byte.x50 Byte.x00 258 0 /\
   (forall bs, length bs = 8%nat -> encode_header (decode_header bs) = bs)).
Proof.
  assert (HP : 0 <= Proto (mkConnHeader Byte.x00 Byte.x53 Byte.x50 Byte.x00 258 0) < 2 ^ 16)
    by (cbn; lia).
  assert (HR : 0 <= Rsvd (mkConnHeader Byte.x00 Byte.x53 Byte.x50 Byte.x00 258 0) < 2 ^ 16)
    by (cbn; lia).
  split; [split; assumption|].
  exact (connHeader_roundtrip (mkConnHeader Byte.x00 Byte.x53 Byte.x50 Byte.x00 258 0) HP HR).
Defined.

(** X11. After [Recv] rejects a length with [ErrTooLong], the stream is
    closed but [IsOpen] still reports what it did before; every later
    [Recv] and [Send] on the pipe fails with the closed-connection error
    and changes nothing. *)
Theorem Recv_too_long_after p msg :
  fst (Recv p) = inl ErrTooLong ->
  let p' := snd (Recv p) in
  fst (IsOpen p') = fst (IsOpen p) /\
  sclosed (conn_ p') = true /\
  Recv p' = (inl (Io ErrClosed), p') /\
  Send msg p' = (Some (Io ErrClosed), p').
Proof.
  intros H p'.
  destruct (Recv_too_long_closes p H) as [Hc _].
  destruct (Recv_shape p) as (_ & _ & _ & _ & Ho & _).
  split; [exact Ho|]. split; [exact Hc|].
  split; [apply Recv_closed, Hc | apply Send_closed, Hc].
Qed.

Lemma Recv_too_long_after_witness :
  fst (Recv (mkConn (wit_stream (put_be 8 (max_len + 1))) 0 1 true)) = inl ErrTooLong /\
  (let p' := snd (Recv (mkConn (wit_stream (put_be 8 (max_len + 1))) 0 1 true)) in
   fst (IsOpen p') = fst (IsOpen (mkConn (wit_stream (put_be 8 (max_len + 1))) 0 1 true)) /\
   sclosed (conn_ p') = true /\
   Recv p' = (inl (Io ErrClosed), p') /\
   Send wit_msg p' = (Some (Io ErrClosed), p')).
Proof.
  assert (H : fst (Recv (mkConn (wit_stream (put_be 8 (max_len + 1))) 0 1 true))
              = inl ErrTooLong) by (vm_compute; reflexivity).
  split; [exact H|].
  exact (Recv_too_long_after (mkConn (wit_stream (put_be 8 (max_len + 1))) 0 1 true) wit_msg H).
Defined.
